(** * MSEDCL asset dashboard (mhbase.py): filtering, aggregation, export, load

    A shallow embedding of the data path of [mhbase.py]:
    load (cached) -> filter -> totals / groupby / pivot_table -> to_csv.

    The DataFrame returned by [pd.read_sql] is a list of rows in table
    order, with the seven columns the dashboard names.  A cell of a category
    column is a string or NULL ([None]).  A cell of a count column is a
    whole number or missing ([None]: SQL NULL, NaN in the frame); how the
    frame stores and adds the numbers of a column is its dtype, which comes
    from the database and is a parameter of the operations. *)

From Stdlib Require Import ZArith String Ascii List Lia DecimalString DecimalPos DecimalZ.
From stdpp Require Import base decidable option list strings sorting.

Local Open Scope Z_scope.
Local Open Scope string_scope.

(** ** Data model *)

Record AssetRecord := mkAsset {
  region_name : option string;
  z_name : option string;
  c_name : option string;
  substation : option Z;
  dtc : option Z;
  ht_pole : option Z;
  lt_pole : option Z
}.

Abbreviation AssetTable := (list AssetRecord) (only parsing).

#[local] Instance AssetRecord_eq_dec : EqDecision AssetRecord.
Proof. solve_decision. Defined.

(** The four count columns and the two key columns of the dashboard. *)
Inductive NumCol := Substation | Dtc | HtPole | LtPole.
Inductive KeyCol := RegionName | ZName.

Definition cell (c : NumCol) (r : AssetRecord) : option Z :=
  match c with
  | Substation => substation r
  | Dtc => dtc r
  | HtPole => ht_pole r
  | LtPole => lt_pole r
  end.

Definition key (k : KeyCol) (r : AssetRecord) : option string :=
  match k with
  | RegionName => region_name r
  | ZName => z_name r
  end.

(** [data[k]]: one key column of the frame, as a Series. *)
Definition column (k : KeyCol) (data : AssetTable) : list (option string) :=
  key k <$> data.

(** ** Sidebar selection and the filter (lines 76-90) *)

(** [Series.unique()]: the distinct values, in order of first appearance;
    NULL is one of them when the column has it. *)
Fixpoint unique_from {A} `{EqDecision A} (seen : list A) (l : list A) : list A :=
  match l with
  | [] => []
  | x :: l' =>
      if bool_decide (x ∈ seen) then unique_from seen l'
      else x :: unique_from (x :: seen) l'
  end.

Definition unique {A} `{EqDecision A} (l : list A) : list A := unique_from [] l.

(** [Series.isin(values)]: the element-wise membership mask; a NULL cell
    matches a NULL among the values. *)
Definition isin (col : list (option string)) (values : list (option string)) : list bool :=
  (fun x => bool_decide (x ∈ values)) <$> col.

(** [m1 & m2] on boolean Series. *)
Definition mask_and (m1 m2 : list bool) : list bool := zip_with andb m1 m2.

(** [data[mask]]: the rows at which the mask is True, in frame order. *)
Fixpoint getitem_mask (data : AssetTable) (mask : list bool) : AssetTable :=
  match data, mask with
  | r :: data', b :: mask' =>
      if b then r :: getitem_mask data' mask' else getitem_mask data' mask'
  | _, _ => []
  end.

(** Line 90. *)
Definition filtered_data (data : AssetTable)
    (selected_region selected_zone : list (option string)) : AssetTable :=
  getitem_mask data
    (mask_and (isin (column RegionName data) selected_region)
              (isin (column ZName data) selected_zone)).

(** The default selection of both multiselects (lines 78-79, 84-85). *)
Definition default_region (data : AssetTable) : list (option string) :=
  unique (column RegionName data).
Definition default_zone (data : AssetTable) : list (option string) :=
  unique (column ZName data).

(** The row predicate of the FilteredView, as the data model words it. *)
Definition selected (regions zones : list (option string)) (r : AssetRecord) : Prop :=
  region_name r ∈ regions ∧ z_name r ∈ zones.

#[local] Instance selected_dec regions zones r : Decision (selected regions zones r).
Proof. unfold selected. apply _. Defined.

(** ** Numbers as text

    Python's [str] of an integer, and the [,] format of lines 101-104: the
    digits with a comma between groups of three, counted from the right. *)

Definition comma : ascii := ","%char.
Definition dquote : ascii := "034"%char.
Definition newline : ascii := "010"%char.
Definition creturn : ascii := "013"%char.

Definition str_of_Z (z : Z) : string := NilZero.string_of_int (Z.to_int z).

(** The digits, least significant first, with [k] of them already written
    since the last comma; the result is in the same order. *)
Fixpoint group3_rev (k : nat) (rdigits : list ascii) : list ascii :=
  match rdigits with
  | [] => []
  | d :: rest =>
      if Nat.eqb k 3 then comma :: d :: group3_rev 1 rest
      else d :: group3_rev (S k) rest
  end.

Definition group_thousands (digits : string) : string :=
  string_of_list_ascii (rev (group3_rev 0 (rev (list_ascii_of_string digits)))).

Definition format_commas (z : Z) : string :=
  match z with
  | Zneg p => String "-" (group_thousands (str_of_Z (Zpos p)))
  | _ => group_thousands (str_of_Z z)
  end.

(** The characters that make the csv writer quote a field; whether a
    carriage return is one of them depends on the Python version
    ([quote_cr]: 3.13 and later; before, only the characters of the line
    terminator). *)
Definition special (quote_cr : bool) (a : ascii) : bool :=
  Ascii.eqb a comma || Ascii.eqb a dquote || Ascii.eqb a newline
  || (quote_cr && Ascii.eqb a creturn).

Fixpoint has_special (quote_cr : bool) (s : string) : bool :=
  match s with
  | EmptyString => false
  | String a s' => special quote_cr a || has_special quote_cr s'
  end.

(** ** Column dtypes and their arithmetic

    [read_sql] gives an integer column without NULL the dtype int64, a
    column of numbers with a NULL, or of a numeric SQL type, float64, and a
    column of NULLs only the dtype object.  int64 sums wrap around; object
    cells are Python integers and add exactly.

    float64 sums are rounded, and in an order that differs between
    [Series.sum] (numpy) and the grouped sum (pandas), so the two routines
    are parameters, as are the texts Python gives a float in [to_csv] and
    in the [,] format.  What is known of them is [numerics_ok]: adding
    whole numbers whose absolute values add up to at most 2^53 involves no
    rounding in any order, and below 10^16 a whole float is written in
    fixed notation with a trailing [.0]. *)

Inductive dtype := Int64 | Float64 | Object.

Definition wrap64 (z : Z) : Z := (z + 2 ^ 63) mod 2 ^ 64 - 2 ^ 63.

Fixpoint Zsum (l : list Z) : Z :=
  match l with
  | [] => 0
  | x :: l' => x + Zsum l'
  end.

Definition sum_abs (l : list Z) : Z := Zsum (Z.abs <$> l).

Record Numerics := mkNumerics {
  fsum : list Z → Z;          (* Series.sum on float64 *)
  gsum : list Z → Z;          (* groupby sum on float64 *)
  float_repr : Z → string;    (* text of a whole float in to_csv *)
  float_commas : Z → string   (* text of a whole float under the , format *)
}.

Definition numerics_ok (nm : Numerics) : Prop :=
  (∀ l, (sum_abs l ≤ 2 ^ 53)%Z → fsum nm l = Zsum l)
  ∧ (∀ l, (sum_abs l ≤ 2 ^ 53)%Z → gsum nm l = Zsum l)
  ∧ (∀ z, Z.abs z < 10 ^ 16 → float_repr nm z = str_of_Z z ++ ".0")
  ∧ (∀ z, has_special true (float_repr nm z) = false ∧ float_repr nm z ≠ EmptyString)
  ∧ (∀ z, Z.abs z < 10 ^ 16 → float_commas nm z = format_commas z ++ ".0").

(** A platform to run the definitions on: float64 sums by sequential
    addition rounded to nearest-even (infinities apart), float texts in
    fixed notation throughout. *)
Definition round64 (z : Z) : Z :=
  if (Z.abs z <=? 2 ^ 53)%Z then z
  else
    let e := Z.log2 (Z.abs z) - 52 in
    let q := Z.abs z / 2 ^ e in
    let r := Z.abs z mod 2 ^ e in
    let q' := if (2 * r <? 2 ^ e)%Z then q
              else if (2 ^ e <? 2 * r)%Z then q + 1
              else if Z.even q then q else q + 1 in
    Z.sgn z * (q' * 2 ^ e).

Definition seq_fsum (l : list Z) : Z :=
  fold_left (fun acc x => round64 (acc + x)) l 0.

Definition reference_numerics : Numerics :=
  mkNumerics seq_fsum seq_fsum
             (fun z => str_of_Z z ++ ".0") (fun z => format_commas z ++ ".0").

(** ** Aggregation engine (lines 93-150) *)

Definition fillna0 (x : option Z) : Z := default 0 x.

(** [view[c]]: one count column of the frame. *)
Definition num_column (c : NumCol) (view : AssetTable) : list (option Z) :=
  cell c <$> view.

(** [Series.sum()] with its defaults [skipna=True, min_count=0]: the
    missing cells are filled with 0 and the values are added up, so an
    empty or all-missing Series sums to 0. *)
Definition series_sum (nm : Numerics) (t : dtype) (s : list (option Z)) : Z :=
  match t with
  | Int64 => fold_left (fun acc x => wrap64 (acc + x)) (fillna0 <$> s) 0
  | Float64 => fsum nm (fillna0 <$> s)
  | Object => fold_left Z.add (fillna0 <$> s) 0
  end.

(** The sum of a group in [groupby(...).sum()] and [pivot_table(aggfunc=sum)]:
    the missing cells are skipped, a group without values sums to 0. *)
Definition group_sum (nm : Numerics) (t : dtype) (s : list (option Z)) : Z :=
  match t with
  | Int64 => fold_left (fun acc x => wrap64 (acc + x)) (omap id s) 0
  | Float64 => gsum nm (omap id s)
  | Object => fold_left Z.add (omap id s) 0
  end.

(** When the sums of a column involve neither wrap-around nor rounding. *)
Definition in_range (t : dtype) (s : list (option Z)) : Prop :=
  match t with
  | Int64 => sum_abs (fillna0 <$> s) < 2 ^ 63
  | Float64 => (sum_abs (fillna0 <$> s) ≤ 2 ^ 53)%Z
  | Object => True
  end.

(** When the sums of a column involve no rounding (int64 may wrap). *)
Definition rounding_free (t : dtype) (s : list (option Z)) : Prop :=
  match t with
  | Float64 => (sum_abs (fillna0 <$> s) ≤ 2 ^ 53)%Z
  | _ => True
  end.

(** The value a sum has in a dtype when nothing is rounded: int64 keeps
    the low 64 bits. *)
Definition reduce (t : dtype) (z : Z) : Z :=
  match t with
  | Int64 => wrap64 z
  | _ => z
  end.

Record AggregateSummary := mkSummary {
  total_substation : Z;
  total_dtc : Z;
  total_ht_pole : Z;
  total_lt_pole : Z
}.

Definition total (c : NumCol) (s : AggregateSummary) : Z :=
  match c with
  | Substation => total_substation s
  | Dtc => total_dtc s
  | HtPole => total_ht_pole s
  | LtPole => total_lt_pole s
  end.

(** Lines 93-96. *)
Definition totals (nm : Numerics) (dt : NumCol → dtype) (view : AssetTable)
    : AggregateSummary :=
  {| total_substation := series_sum nm (dt Substation) (num_column Substation view);
     total_dtc := series_sum nm (dt Dtc) (num_column Dtc view);
     total_ht_pole := series_sum nm (dt HtPole) (num_column HtPole view);
     total_lt_pole := series_sum nm (dt LtPole) (num_column LtPole view) |}.

(** The sum of count column [c] over the rows of a view, a missing cell
    contributing nothing. *)
Definition column_sum (c : NumCol) (view : AssetTable) : Z :=
  Zsum ((fun r => default 0 (cell c r)) <$> view).

Definition zero_summary : AggregateSummary := mkSummary 0 0 0 0.

(** Group keys come out sorted ([groupby] has [sort=True]); Python orders
    strings by code point, which on UTF-8 text is the byte order of
    [String.le]. *)
Definition pair_le (p q : string * string) : Prop :=
  if decide (p.1 = q.1) then String.le p.2 q.2 else String.le p.1 q.1.

#[local] Instance pair_le_dec p q : Decision (pair_le p q).
Proof. unfold pair_le. destruct (decide (p.1 = q.1)); apply _. Defined.

(** The rows of one group. *)
Definition get_group (k : KeyCol) (v : string) (view : AssetTable) : AssetTable :=
  filter (fun r => key k r = Some v) view.

(** The keys of the groups: [groupby] has [dropna=True], so the rows with
    a NULL key belong to no group. *)
Definition group_keys (k : KeyCol) (view : AssetTable) : list string :=
  merge_sort String.le (unique (omap (key k) view)).

Definition group_totals (nm : Numerics) (dt : NumCol → dtype) (rows : AssetTable)
    : AggregateSummary :=
  {| total_substation := group_sum nm (dt Substation) (num_column Substation rows);
     total_dtc := group_sum nm (dt Dtc) (num_column Dtc rows);
     total_ht_pole := group_sum nm (dt HtPole) (num_column HtPole rows);
     total_lt_pole := group_sum nm (dt LtPole) (num_column LtPole rows) |}.

(** [sum] of a column of strings in a group: the strings of the group one
    after the other, NULL cells skipped; [None] when the group has no
    string to add up, and the cell then holds no text. *)
Definition concat_text (cells : list (option string)) : option string :=
  match omap id cells with
  | [] => None
  | s :: rest => Some (fold_left String.append rest s)
  end.

(** The category columns other than the key, in frame order. *)
Definition text_columns (k : KeyCol) : list (AssetRecord → option string) :=
  match k with
  | RegionName => [z_name; c_name]
  | ZName => [region_name; c_name]
  end.

Record GroupRow := mkGroupRow {
  g_key : string;
  g_text : list (option string);
  g_sums : AggregateSummary
}.

(** [view.groupby(k).sum().reset_index()] (lines 107 and 133): one row per
    distinct key that is not NULL, in key order, holding the sums of the
    other columns over the group. *)
Definition groupby_sum (nm : Numerics) (dt : NumCol → dtype) (k : KeyCol)
    (view : AssetTable) : list GroupRow :=
  (fun v =>
     let rows := get_group k v view in
     mkGroupRow v ((fun col => concat_text (col <$> rows)) <$> text_columns k)
                (group_totals nm dt rows))
    <$> group_keys k view.

Definition region_data nm dt (view : AssetTable) := groupby_sum nm dt RegionName view.
Definition zone_data nm dt (view : AssetTable) := groupby_sum nm dt ZName view.



(** *** The pivot (lines 144-150)

    [pivot_table] groups by the two keys jointly (rows with a NULL in
    either key belong to no group), sums each group, and unstacks the zone
    level: one row per region of a group, one column per (count column,
    zone of a group), a combination without a group being filled with
    [fill_value]. *)

Definition key2 (r : AssetRecord) : option (string * string) :=
  match region_name r, z_name r with
  | Some a, Some b => Some (a, b)
  | _, _ => None
  end.

Definition get_group2 (p : string * string) (view : AssetTable) : AssetTable :=
  filter (fun r => key2 r = Some p) view.

Definition agged (nm : Numerics) (dt : NumCol → dtype) (view : AssetTable)
    : list ((string * string) * AggregateSummary) :=
  (fun p => (p, group_totals nm dt (get_group2 p view)))
    <$> merge_sort pair_le (unique (omap key2 view)).

Definition lookup_group (p : string * string)
    (a : list ((string * string) * AggregateSummary)) : option AggregateSummary :=
  snd <$> find (fun e => bool_decide (e.1 = p)) a.

Definition pivot_index (a : list ((string * string) * AggregateSummary)) : list string :=
  merge_sort String.le (unique ((fun e => e.1.1) <$> a)).

Definition pivot_zones (a : list ((string * string) * AggregateSummary)) : list string :=
  merge_sort String.le (unique ((fun e => e.1.2) <$> a)).

(** The value level of the column index after [sort_index(axis=1)]. *)
Definition value_columns : list NumCol := [Dtc; HtPole; LtPole; Substation].

Definition fill_value : Z := 0.

Definition unstack_cell (a : list ((string * string) * AggregateSummary))
    (r : string) (c : NumCol) (z : string) : Z :=
  match lookup_group (r, z) a with
  | Some s => total c s
  | None => fill_value
  end.

Definition PivotSummary := list (string * list ((NumCol * string) * Z)).

Definition unstack (a : list ((string * string) * AggregateSummary)) : PivotSummary :=
  (fun r =>
     (r, c ← value_columns;
         (fun z => ((c, z), unstack_cell a r c z)) <$> pivot_zones a))
    <$> pivot_index a.

Definition heatmap_data (nm : Numerics) (dt : NumCol → dtype) (view : AssetTable)
    : PivotSummary :=
  unstack (agged nm dt view).

#[local] Instance NumCol_eq_dec : EqDecision NumCol.
Proof. solve_decision. Defined.



(** Reading the margins of a pivot: the sum of the cells of count column
    [c] in the row of region [r], and in the column of zone [z]. *)
Definition pivot_row_sum (c : NumCol) (t : PivotSummary) (r : string) : Z :=
  Zsum (row ← t;
        if bool_decide (row.1 = r)
        then e ← row.2; if bool_decide (e.1.1 = c) then [e.2] else []
        else []).

Definition pivot_column_sum (c : NumCol) (t : PivotSummary) (z : string) : Z :=
  Zsum (row ← t; e ← row.2; if bool_decide (e.1 = (c, z)) then [e.2] else []).

(** ** Key metrics (lines 101-104)

    [f"{total:,}"]: the total of an int64 or object column is an integer
    and is shown with its digits grouped; the total of a float64 column is
    a float. *)

Definition metric_text (nm : Numerics) (t : dtype) (z : Z) : string :=
  match t with
  | Float64 => float_commas nm z
  | _ => format_commas z
  end.

(** The text of one of the four metrics: the total has the dtype of its column. *)
Definition metric (nm : Numerics) (dt : NumCol → dtype) (c : NumCol)
    (filtered : AssetTable) : string :=
  metric_text nm (dt c) (total c (totals nm dt filtered)).

Fixpoint remove_commas (s : string) : string :=
  match s with
  | EmptyString => EmptyString
  | String a s' =>
      if Ascii.eqb a comma then remove_commas s' else String a (remove_commas s')
  end.

(** ** Data source and result cache (lines 43-63)

    The database is outside the program: an environment [Env] answers each
    connection attempt and each query, by their sequence numbers.  The
    program's side is a [World]: how many connections and queries it has
    made so far, which connections are open, and the store of
    [st.cache_data] for [load_data], which lives as long as the process. *)

Inductive error := ConnectionError | QueryError.

Record Env := mkEnv {
  connect_answer : nat → bool;
  query_answer : nat → option (list AssetRecord)
}.

Record World := mkWorld {
  connects : nat;
  queries : nat;
  open_conns : list nat;
  cache : option (list AssetRecord)
}.

Definition init_world : World := mkWorld 0 0 [] None.

(** Computations that read and change the world and may raise. *)
Definition M (A : Type) : Type := World → (error + A) * World.

#[local] Instance M_ret : MRet M := fun A x w => (inr x, w).
#[local] Instance M_bind : MBind M := fun A B k m w =>
  match m w with
  | (inl e, w') => (inl e, w')
  | (inr x, w') => k x w'
  end.

(** [psycopg2.connect(...)]: a new open connection, or an error. *)
Definition get_db_connection (env : Env) : M nat := fun w =>
  let id := connects w in
  let w' := mkWorld (S id) (queries w) (open_conns w) (cache w) in
  if connect_answer env id
  then (inr id, mkWorld (S id) (queries w) (id :: open_conns w) (cache w))
  else (inl ConnectionError, w').

(** [pd.read_sql(query, conn)]: all rows of [asset_data], or an error. *)
Definition read_sql (env : Env) (conn : nat) : M (list AssetRecord) := fun w =>
  let w' := mkWorld (connects w) (S (queries w)) (open_conns w) (cache w) in
  match query_answer env (queries w) with
  | Some data => (inr data, w')
  | None => (inl QueryError, w')
  end.

(** [conn.close()]. *)
Definition conn_close (conn : nat) : M unit := fun w =>
  (inr tt, mkWorld (connects w) (queries w)
                   (filter (fun c => c ≠ conn) (open_conns w)) (cache w)).

(** Lines 55-60, the body of [load_data]. *)
Definition load_data (env : Env) : M (list AssetRecord) :=
  conn ← get_db_connection env;
  data ← read_sql env conn;
  _ ← conn_close conn;
  mret data.

(** [@st.cache_data] on a function without arguments: a stored value is
    returned as it is; otherwise the function runs and its value, if it
    returns one, is stored.  An exception passes through and stores nothing. *)
Definition cache_data (f : M (list AssetRecord)) : M (list AssetRecord) := fun w =>
  match cache w with
  | Some data => (inr data, w)
  | None =>
      match f w with
      | (inr data, w') =>
          (inr data, mkWorld (connects w') (queries w') (open_conns w') (Some data))
      | (inl e, w') => (inl e, w')
      end
  end.

(** Line 63, [data = load_data()], as every run of the script executes it. *)
Definition load_data_cached (env : Env) : M (list AssetRecord) :=
  cache_data (load_data env).

(** What happens between two runs: the exception that ended a run is
    released, and a connection it left open is then unreferenced and is
    closed when it is deallocated. *)
Definition release (w : World) : World :=
  mkWorld (connects w) (queries w) [] (cache w).

(** [n] successive runs of the script in one process: the outcome of line 63
    in each run, oldest first, and the world they leave. *)
Fixpoint runs (env : Env) (n : nat) (w : World)
    : list (error + list AssetRecord) * World :=
  match n with
  | O => ([], w)
  | S n' =>
      let (res, w') := load_data_cached env (release w) in
      let (rest, w'') := runs env n' w' in
      (res :: rest, w'')
  end.

(** How many of the first [q] queries were answered with rows. *)
Fixpoint completed_loads (env : Env) (q : nat) : nat :=
  match q with
  | O => 0
  | S q' =>
      match query_answer env q' with
      | Some _ => S (completed_loads env q')
      | None => completed_loads env q'
      end
  end.

(** A database that accepts the connection and rejects the query, as when
    the table [asset_data] does not exist. *)
Definition env_query_fails : Env := mkEnv (fun _ => true) (fun _ => None).

(** A database that answers every query with the same rows. *)
Definition env_ok (data : list AssetRecord) : Env :=
  mkEnv (fun _ => true) (fun _ => Some data).

(** A database that is down for the first run and healthy afterwards. *)
Definition env_late (data : list AssetRecord) : Env :=
  mkEnv (fun i => negb (Nat.eqb i 0)) (fun _ => Some data).

(** What the cache holds accounts for every load that was completed. *)
Definition cache_inv (env : Env) (w : World) : Prop :=
  match cache w with
  | None => completed_loads env (queries w) = 0%nat
  | Some _ => completed_loads env (queries w) = 1%nat
  end.

(** Whether a run ended by raising [e], and how many of the runs did. *)
Definition raised (e : error) (res : error + list AssetRecord) : bool :=
  match res, e with
  | inl ConnectionError, ConnectionError => true
  | inl QueryError, QueryError => true
  | _, _ => false
  end.

Fixpoint count_raised (e : error) (results : list (error + list AssetRecord)) : nat :=
  match results with
  | [] => 0
  | res :: rest => (if raised e res then 1 else 0) + count_raised e rest
  end%nat.

(** The connections a sequence of runs leaves open: that of the last run,
    if it ended with a query error. *)
Definition open_after (results : list (error + list AssetRecord)) : nat :=
  match last results with
  | Some res => if raised QueryError res then 1%nat else 0%nat
  | None => 0%nat
  end.

(** The first query that the database answered with rows, if [q] is it. *)
Definition first_answer (env : Env) (q : nat) (data : list AssetRecord) : Prop :=
  query_answer env q = Some data ∧ ∀ q', (q' < q)%nat → query_answer env q' = None.

(** What the cache holds is the first answer among the queries made so far. *)
Definition cache_from_db (env : Env) (w : World) : Prop :=
  match cache w with
  | None => ∀ q, (q < queries w)%nat → query_answer env q = None
  | Some data => ∃ q, (q < queries w)%nat ∧ first_answer env q data
  end.

(** ** CSV export (line 173)

    [to_csv(index=False)] writes the header and then one line per row
    through Python's [csv] writer with the defaults of [to_csv]:
    comma as delimiter, the double quote as quote character,
    [QUOTE_MINIMAL] with doubled quotes, line feed as line terminator (the
    [os.linesep] of the hosts the dashboard runs on), and the empty field
    for a NULL or missing cell ([na_rep]). *)

(** Every quote character of the field is written twice. *)
Fixpoint escape_quotes (s : string) : string :=
  match s with
  | EmptyString => EmptyString
  | String a s' =>
      if Ascii.eqb a dquote then String dquote (String dquote (escape_quotes s'))
      else String a (escape_quotes s')
  end.

Definition quote_minimal (quote_cr : bool) (s : string) : string :=
  if has_special quote_cr s
  then String dquote (escape_quotes s ++ String dquote EmptyString)
  else s.

(** A category cell as text; NULL is written like the empty string. *)
Definition category_text (x : option string) : string := default EmptyString x.

(** A count cell as text: the integer of an int64 or object column, the
    float of a float64 column, nothing if missing. *)
Definition format_cell (nm : Numerics) (t : dtype) (x : option Z) : string :=
  match x, t with
  | None, _ => EmptyString
  | Some z, Float64 => float_repr nm z
  | Some z, _ => str_of_Z z
  end.


Definition row_fields (nm : Numerics) (dt : NumCol → dtype) (r : AssetRecord)
    : list string :=
  [category_text (region_name r); category_text (z_name r); category_text (c_name r);
   format_cell nm (dt Substation) (substation r); format_cell nm (dt Dtc) (dtc r);
   format_cell nm (dt HtPole) (ht_pole r); format_cell nm (dt LtPole) (lt_pole r)].

(** One line of the file: the fields, quoted where needed, separated by
    the delimiter and closed by the line terminator. *)
Fixpoint write_row (quote_cr : bool) (fields : list string) : string :=
  match fields with
  | [] => String newline EmptyString
  | [f] => quote_minimal quote_cr f ++ String newline EmptyString
  | f :: fs => quote_minimal quote_cr f ++ String comma (write_row quote_cr fs)
  end.





























(** ** Sample data

    The table of the specification's worked example; one with missing
    count cells; one whose int64 sum leaves the int64 range; one with a
    NULL key. *)

Definition asset (region zone name : string) (s d h l : Z) : AssetRecord :=
  mkAsset (Some region) (Some zone) (Some name) (Some s) (Some d) (Some h) (Some l).

Definition example_table : AssetTable :=
  [ asset "A" "X" "c1" 2 1 0 0;
    asset "A" "Y" "c2" 3 0 1 0;
    asset "B" "X" "c3" 0 5 0 2 ].

Definition example_missing : AssetTable :=
  [ mkAsset (Some "A") (Some "X") (Some "c1") None (Some 1) None (Some 4);
    mkAsset (Some "A") (Some "Y") (Some "c2") (Some 3) None None (Some 0);
    mkAsset (Some "B") (Some "X") (Some "c3") None None None None ].

Definition example_big : AssetTable :=
  [ asset "A" "X" "c1" (2 ^ 62) 0 0 0;
    asset "B" "X" "c2" (2 ^ 62) 0 0 0 ].

Definition example_null_key : AssetTable :=
  [ asset "A" "X" "c1" 2 0 0 0;
    mkAsset None (Some "X") (Some "c2") (Some 3) None (Some 0) (Some 0);
    mkAsset (Some "B") None (Some "c3") (Some 4) (Some 0) (Some 0) (Some 0) ].

Definition all_int64 : NumCol → dtype := fun _ => Int64.
Definition all_float64 : NumCol → dtype := fun _ => Float64.


Definition null_key_dtypes : NumCol → dtype :=
  fun c => match c with Dtc => Float64 | _ => Int64 end.



(** * Proofs *)

(** ** The worked example of the specification *)

Example example_filter :
  filtered_data example_table [Some "A"] [Some "X"; Some "Y"] = take 2 example_table.
Proof. reflexivity. Qed.

Example example_totals :
  totals reference_numerics all_int64
         (filtered_data example_table [Some "A"] [Some "X"; Some "Y"])
  = mkSummary 5 1 1 0.
Proof. reflexivity. Qed.

Example example_region_data :
  region_data reference_numerics all_int64 example_table =
  [ mkGroupRow "A" [Some "XY"; Some "c1c2"] (mkSummary 5 1 1 0);
    mkGroupRow "B" [Some "X"; Some "c3"] (mkSummary 0 5 0 2) ].
Proof. vm_compute. reflexivity. Qed.

Example example_heatmap :
  heatmap_data reference_numerics all_int64 example_table =
  [("A", [((Dtc, "X"), 1); ((Dtc, "Y"), 0); ((HtPole, "X"), 0); ((HtPole, "Y"), 1);
          ((LtPole, "X"), 0); ((LtPole, "Y"), 0); ((Substation, "X"), 2); ((Substation, "Y"), 3)]);
   ("B", [((Dtc, "X"), 5); ((Dtc, "Y"), 0); ((HtPole, "X"), 0); ((HtPole, "Y"), 0);
          ((LtPole, "X"), 2); ((LtPole, "Y"), 0); ((Substation, "X"), 0); ((Substation, "Y"), 0)])].
Proof. vm_compute. reflexivity. Qed.

(** ** Filter engine *)

Lemma filtered_data_cons r (data : AssetTable) regions zones :
  filtered_data (r :: data) regions zones =
  if bool_decide (region_name r ∈ regions) && bool_decide (z_name r ∈ zones)
  then r :: filtered_data data regions zones
  else filtered_data data regions zones.
Proof. reflexivity. Qed.

(** The mask-and-select of line 90 computes the filter by [selected]. *)
Lemma filtered_data_filter (data : AssetTable) regions zones :
  filtered_data data regions zones = filter (selected regions zones) data.
Proof.
  induction data as [|r data IH]; [done|].
  rewrite filtered_data_cons, IH.
  destruct (decide (selected regions zones r)) as [Hs|Hs].
  - rewrite filter_cons_True by done. destruct Hs as [H1 H2].
    by rewrite !bool_decide_eq_true_2.
  - rewrite filter_cons_False by done.
    destruct (bool_decide_reflect (region_name r ∈ regions));
      destruct (bool_decide_reflect (z_name r ∈ zones)); simpl; try done.
    destruct Hs. by split.
Qed.

(** C1: the filter keeps exactly the rows whose region and zone are both
    selected (with their multiplicity), no other row appears, and the
    result is a subsequence of the table in the original row order. *)
Theorem filter_exact_subsequence (table : AssetTable)
    (regions zones : list (option string)) :
  filtered_data table regions zones = filter (selected regions zones) table
  ∧ (∀ r, r ∈ filtered_data table regions zones ↔
          r ∈ table ∧ region_name r ∈ regions ∧ z_name r ∈ zones)
  ∧ filtered_data table regions zones `sublist_of` table.
Proof.
  rewrite filtered_data_filter. split; [done|]. split.
  - intros r. rewrite list_elem_of_filter. unfold selected. tauto.
  - apply sublist_filter.
Qed.

(** *** [unique] *)

Lemma elem_of_unique_from {A} `{EqDecision A} (seen l : list A) x :
  x ∈ unique_from seen l ↔ x ∈ l ∧ x ∉ seen.
Proof.
  revert seen. induction l as [|y l IH]; intros seen; simpl.
  - rewrite elem_of_nil. tauto.
  - case_bool_decide as Hy.
    + rewrite IH, elem_of_cons. split; [tauto|].
      intros [[->|?] ?]; tauto.
    + rewrite !elem_of_cons, IH, elem_of_cons.
      destruct (decide (x = y)) as [->|]; tauto.
Qed.

Lemma elem_of_unique {A} `{EqDecision A} (l : list A) x : x ∈ unique l ↔ x ∈ l.
Proof.
  unfold unique. rewrite elem_of_unique_from, elem_of_nil. tauto.
Qed.

Lemma NoDup_unique_from {A} `{EqDecision A} (seen l : list A) :
  NoDup (unique_from seen l).
Proof.
  revert seen. induction l as [|y l IH]; intros seen; simpl.
  - constructor.
  - case_bool_decide; [apply IH|].
    constructor; [|apply IH].
    rewrite elem_of_unique_from, elem_of_cons. tauto.
Qed.

Lemma NoDup_unique {A} `{EqDecision A} (l : list A) : NoDup (unique l).
Proof. apply NoDup_unique_from. Qed.

Lemma filter_all {A} (P : A → Prop) `{!∀ x, Decision (P x)} (l : list A) :
  (∀ x, x ∈ l → P x) → filter P l = l.
Proof.
  induction l as [|x l IH]; intros Hl; [done|].
  rewrite filter_cons_True by (apply Hl; left).
  f_equal. apply IH. intros y Hy. apply Hl. by right.
Qed.

Lemma filter_none {A} (P : A → Prop) `{!∀ x, Decision (P x)} (l : list A) :
  (∀ x, x ∈ l → ¬ P x) → filter P l = [].
Proof.
  induction l as [|x l IH]; intros Hl; [done|].
  rewrite filter_cons_False by (apply Hl; left).
  apply IH. intros y Hy. apply Hl. by right.
Qed.

(** C5: with both selections at their default, the full list of values
    observed in the table, the filter returns the table itself. *)
Theorem filter_full_domain_identity (table : AssetTable) :
  filtered_data table (default_region table) (default_zone table) = table.
Proof.
  rewrite filtered_data_filter.
  apply filter_all. intros r Hr. split.
  - apply elem_of_unique. unfold column. by apply (list_elem_of_fmap_2 (key RegionName)).
  - apply elem_of_unique. unfold column. by apply (list_elem_of_fmap_2 (key ZName)).
Qed.

(** C10: enlarging the selections can only add rows (the smaller view is
    even a subsequence of the larger one), and filtering a filtered view
    again with the same selections changes nothing. *)
Theorem filter_monotone_idempotent (table : AssetTable)
    (regions regions' zones zones' : list (option string)) :
  regions ⊆ regions' → zones ⊆ zones' →
  (∀ r, r ∈ filtered_data table regions zones →
        r ∈ filtered_data table regions' zones')
  ∧ filtered_data table regions zones `sublist_of` filtered_data table regions' zones'
  ∧ filtered_data (filtered_data table regions zones) regions zones
    = filtered_data table regions zones.
Proof.
  intros Hr Hz. rewrite !filtered_data_filter. split; [|split].
  - intros r. rewrite !list_elem_of_filter. unfold selected.
    intros [[? ?] ?]. auto.
  - induction table as [|r table IH]; [done|].
    destruct (decide (selected regions zones r)) as [Hs|Hs].
    + rewrite filter_cons_True by done.
      rewrite filter_cons_True by (destruct Hs; split; auto).
      by constructor.
    + rewrite (filter_cons_False (selected regions zones)) by done.
      destruct (decide (selected regions' zones' r)).
      * rewrite filter_cons_True by done. by constructor.
      * by rewrite filter_cons_False by done.
  - apply filter_all. intros r. rewrite list_elem_of_filter. tauto.
Qed.

Lemma filter_monotone_idempotent_witness :
  let t := example_table in
  (∀ r, r ∈ filtered_data t [Some "A"] [Some "X"] →
        r ∈ filtered_data t [Some "A"; Some "B"] [Some "X"; Some "Y"])
  ∧ filtered_data t [Some "A"] [Some "X"]
    `sublist_of` filtered_data t [Some "A"; Some "B"] [Some "X"; Some "Y"]
  ∧ filtered_data (filtered_data t [Some "A"] [Some "X"]) [Some "A"] [Some "X"]
    = filtered_data t [Some "A"] [Some "X"].
Proof.
  apply (filter_monotone_idempotent example_table [Some "A"] [Some "A"; Some "B"]
           [Some "X"] [Some "X"; Some "Y"]).
  - intros x Hx. apply list_elem_of_singleton in Hx as ->. apply elem_of_cons. by left.
  - intros x Hx. apply list_elem_of_singleton in Hx as ->. apply elem_of_cons. by left.
Defined.

Local Open Scope list_scope.
Local Open Scope Z_scope.

(** ** Sums *)

Lemma fold_left_add_Zsum (l : list Z) (acc : Z) :
  fold_left Z.add l acc = acc + Zsum l.
Proof.
  revert acc. induction l as [|x l IH]; intros acc; simpl; [lia|].
  rewrite IH. lia.
Qed.

Lemma Zsum_app (l1 l2 : list Z) : Zsum (l1 ++ l2) = Zsum l1 + Zsum l2.
Proof. induction l1 as [|x l1 IH]; csimpl; lia. Qed.

Lemma Zsum_fmap_add {A} (g h : A → Z) (l : list A) :
  Zsum ((fun x => g x + h x) <$> l) = Zsum (g <$> l) + Zsum (h <$> l).
Proof. induction l as [|x l IH]; csimpl; lia. Qed.

Lemma Zsum_fmap_ext {A} (g h : A → Z) (l : list A) :
  (∀ x, x ∈ l → g x = h x) → Zsum (g <$> l) = Zsum (h <$> l).
Proof.
  induction l as [|x l IH]; intros Hl; csimpl; [done|].
  rewrite (Hl x) by left. rewrite IH; [done|]. intros y Hy. apply Hl. by right.
Qed.

Lemma Zsum_fmap_zero {A} (l : list A) : Zsum ((fun _ => 0) <$> l) = 0.
Proof. induction l as [|x l IH]; csimpl; lia. Qed.

Lemma Zsum_indicator {K} `{EqDecision K} (ks : list K) (x : K) (a : Z) :
  NoDup ks → x ∈ ks →
  Zsum ((fun v => if decide (x = v) then a else 0) <$> ks) = a.
Proof.
  induction ks as [|v ks IH]; intros Hnd Hx; [by apply elem_of_nil in Hx|].
  apply NoDup_cons in Hnd as [Hv Hnd]. csimpl.
  destruct (decide (x = v)) as [->|Hne].
  - rewrite (Zsum_fmap_ext _ (fun _ => 0)), Zsum_fmap_zero; [lia|].
    intros y Hy. destruct (decide (v = y)) as [->|]; [done|done].
  - apply elem_of_cons in Hx as [?|Hx]; [done|]. rewrite IH by done. lia.
Qed.

Lemma Zsum_bind {A} (f : A → list Z) (l : list A) :
  Zsum (l ≫= f) = Zsum ((fun x => Zsum (f x)) <$> l).
Proof.
  induction l as [|x l IH]; [done|].
  rewrite bind_cons, Zsum_app, IH. done.
Qed.

Lemma Zsum_Permutation (l l' : list Z) : l ≡ₚ l' → Zsum l = Zsum l'.
Proof. induction 1; simpl; lia. Qed.


(** Summing group by group over any duplicate-free list of keys that
    covers the keys of the view gives the sum over the rows that have a
    key. *)
Lemma Zsum_partition {K} `{EqDecision K} (kf : AssetRecord → option K)
    (f : AssetRecord → Z) (ks : list K) (view : AssetTable) :
  NoDup ks → (∀ r v, r ∈ view → kf r = Some v → v ∈ ks) →
  Zsum ((fun v => Zsum (f <$> filter (fun r => kf r = Some v) view)) <$> ks)
  = Zsum (f <$> filter (fun r => is_Some (kf r)) view).
Proof.
  intros Hnd. induction view as [|r view IH]; intros Hcov.
  - simpl. apply Zsum_fmap_zero.
  - assert (Zsum ((fun v => Zsum (f <$> filter (fun r => kf r = Some v) view)) <$> ks)
            = Zsum (f <$> filter (fun r => is_Some (kf r)) view)) as IH'.
    { apply IH. intros r' v Hr'. apply Hcov. by right. }
    destruct (kf r) as [v0|] eqn:Hk.
    + rewrite (filter_cons_True (fun r => is_Some (kf r))) by (by rewrite Hk).
      csimpl. rewrite <- IH'.
      rewrite (Zsum_fmap_ext _
        (fun v => (if decide (v0 = v) then f r else 0)
                  + Zsum (f <$> filter (fun r' => kf r' = Some v) view))).
      * rewrite Zsum_fmap_add, Zsum_indicator; [done|done|].
        apply (Hcov r); [left|done].
      * intros v _. destruct (decide (v0 = v)) as [->|Hv].
        -- rewrite filter_cons_True by done. csimpl. lia.
        -- rewrite filter_cons_False by congruence. lia.
    + rewrite (filter_cons_False (fun r => is_Some (kf r)))
        by (rewrite Hk; by intros [? ?]).
      rewrite <- IH'. apply Zsum_fmap_ext. intros v _.
      rewrite filter_cons_False by congruence. done.
Qed.

(** *** Absolute values *)

Lemma sum_abs_nonneg (l : list Z) : 0 ≤ sum_abs l.
Proof. unfold sum_abs. induction l as [|x l IH]; csimpl; lia. Qed.

Lemma Zsum_abs_le (l : list Z) : Z.abs (Zsum l) ≤ sum_abs l.
Proof. unfold sum_abs. induction l as [|x l IH]; csimpl; lia. Qed.

Lemma sum_abs_app (l1 l2 : list Z) : sum_abs (l1 ++ l2) = sum_abs l1 + sum_abs l2.
Proof. unfold sum_abs. by rewrite fmap_app, Zsum_app. Qed.

Lemma sum_abs_omap (s : list (option Z)) :
  sum_abs (omap id s) = sum_abs (fillna0 <$> s).
Proof.
  unfold sum_abs. induction s as [|[z|] s IH]; csimpl; [done|by rewrite IH|].
  rewrite IH. simpl. lia.
Qed.

Lemma Zsum_omap (s : list (option Z)) : Zsum (omap id s) = Zsum (fillna0 <$> s).
Proof. induction s as [|[z|] s IH]; csimpl; [done|by rewrite IH|]. by rewrite IH. Qed.

Lemma sum_abs_filter {A} (f : A → option Z) (P : A → Prop) `{!∀ x, Decision (P x)}
    (l : list A) :
  sum_abs (fillna0 <$> (f <$> filter P l)) ≤ sum_abs (fillna0 <$> (f <$> l)).
Proof.
  unfold sum_abs. induction l as [|x l IH]; [done|].
  rewrite filter_cons. destruct (decide (P x)); csimpl; lia.
Qed.

(** *** int64 *)

Lemma wrap64_small (z : Z) : - 2 ^ 63 ≤ z < 2 ^ 63 → wrap64 z = z.
Proof. intros H. unfold wrap64. rewrite Z.mod_small; lia. Qed.

Lemma wrap64_add_l (a b : Z) : wrap64 (wrap64 a + b) = wrap64 (a + b).
Proof.
  unfold wrap64.
  replace ((a + 2 ^ 63) mod 2 ^ 64 - 2 ^ 63 + b + 2 ^ 63)
    with ((a + 2 ^ 63) mod 2 ^ 64 + b) by lia.
  rewrite Zplus_mod_idemp_l. f_equal. f_equal. lia.
Qed.

Lemma wrap64_add_r (a b : Z) : wrap64 (a + wrap64 b) = wrap64 (a + b).
Proof. rewrite (Z.add_comm a), wrap64_add_l. f_equal. lia. Qed.

Lemma wrap64_idemp (a : Z) : wrap64 (wrap64 a) = wrap64 a.
Proof.
  replace (wrap64 a) with (wrap64 a + 0) at 1 by lia.
  rewrite wrap64_add_l. f_equal. lia.
Qed.

Lemma fold_wrap64 (l : list Z) (a : Z) :
  fold_left (fun acc x => wrap64 (acc + x)) l (wrap64 a) = wrap64 (a + Zsum l).
Proof.
  revert a. induction l as [|x l IH]; intros a; simpl.
  - f_equal. lia.
  - rewrite wrap64_add_l, IH. f_equal. lia.
Qed.

Lemma fold_wrap64_0 (l : list Z) :
  fold_left (fun acc x => wrap64 (acc + x)) l 0 = wrap64 (Zsum l).
Proof. change 0 with (wrap64 0) at 1. by rewrite fold_wrap64. Qed.


(** *** Texts without special characters *)

Lemma has_special_app q (a b : string) :
  has_special q (a ++ b)%string = has_special q a || has_special q b.
Proof.
  induction a as [|x a IH]; [done|].
  change (special q x || has_special q (a ++ b)%string
          = special q x || has_special q a || has_special q b).
  by rewrite IH, orb_assoc.
Qed.

Lemma string_of_uint_plain q (d : Decimal.uint) :
  has_special q (NilEmpty.string_of_uint d) = false.
Proof. induction d; simpl; try done; by destruct q. Qed.

Lemma str_of_Z_plain q (z : Z) : has_special q (str_of_Z z) = false.
Proof.
  unfold str_of_Z, NilZero.string_of_int, NilZero.string_of_uint.
  destruct (Z.to_int z) as [d|d]; destruct d; simpl;
    rewrite ?string_of_uint_plain; by destruct q.
Qed.

(** *** The reference platform *)

Lemma round64_small (z : Z) : Z.abs z ≤ 2 ^ 53 → round64 z = z.
Proof.
  intros H. unfold round64.
  destruct (Z.leb_spec (Z.abs z) (2 ^ 53)); [done|lia].
Qed.

Lemma seq_fsum_exact (l : list Z) : sum_abs l ≤ 2 ^ 53 → seq_fsum l = Zsum l.
Proof.
  intros H. unfold seq_fsum.
  assert (∀ acc, Z.abs acc + sum_abs l ≤ 2 ^ 53 →
          fold_left (fun acc x => round64 (acc + x)) l acc = acc + Zsum l) as Hgen.
  { clear H. induction l as [|x l IH]; intros acc Hb; simpl; [lia|].
    unfold sum_abs in Hb. csimpl in Hb. fold (sum_abs l) in Hb.
    pose proof (sum_abs_nonneg l).
    rewrite round64_small by lia. rewrite IH by lia. lia. }
  rewrite Hgen; simpl; lia.
Qed.

Lemma reference_numerics_ok : numerics_ok reference_numerics.
Proof.
  repeat split; simpl; auto using seq_fsum_exact.
  - rewrite has_special_app, str_of_Z_plain. done.
  - by destruct (str_of_Z z).
Qed.

(** *** Sums in a dtype *)

Lemma series_sum_reduce nm t (s : list (option Z)) :
  numerics_ok nm → rounding_free t s →
  series_sum nm t s = reduce t (Zsum (fillna0 <$> s)).
Proof.
  intros (Hf & _) Hr. destruct t; simpl.
  - apply fold_wrap64_0.
  - by apply Hf.
  - rewrite fold_left_add_Zsum. lia.
Qed.

Lemma group_sum_reduce nm t (s : list (option Z)) :
  numerics_ok nm → rounding_free t s →
  group_sum nm t s = reduce t (Zsum (fillna0 <$> s)).
Proof.
  intros (_ & Hg & _) Hr. destruct t; simpl.
  - by rewrite fold_wrap64_0, Zsum_omap.
  - rewrite Hg, Zsum_omap; [done|]. by rewrite sum_abs_omap.
  - rewrite fold_left_add_Zsum, Zsum_omap. lia.
Qed.

Lemma in_range_rounding_free t (s : list (option Z)) :
  in_range t s → rounding_free t s.
Proof. by destruct t. Qed.

Lemma reduce_in_range t (s : list (option Z)) :
  in_range t s → reduce t (Zsum (fillna0 <$> s)) = Zsum (fillna0 <$> s).
Proof.
  destruct t; simpl; [|done..]. intros H.
  pose proof (Zsum_abs_le (fillna0 <$> s)). apply wrap64_small. lia.
Qed.

Lemma series_sum_exact nm t (s : list (option Z)) :
  numerics_ok nm → in_range t s → series_sum nm t s = Zsum (fillna0 <$> s).
Proof.
  intros Hok Hr. rewrite series_sum_reduce by auto using in_range_rounding_free.
  by apply reduce_in_range.
Qed.

Lemma group_sum_exact nm t (s : list (option Z)) :
  numerics_ok nm → in_range t s → group_sum nm t s = Zsum (fillna0 <$> s).
Proof.
  intros Hok Hr. rewrite group_sum_reduce by auto using in_range_rounding_free.
  by apply reduce_in_range.
Qed.

(** The sums of the rows kept by a filter stay in range. *)
Lemma in_range_filter t c (P : AssetRecord → Prop) `{!∀ r, Decision (P r)}
    (view : AssetTable) :
  in_range t (num_column c view) → in_range t (num_column c (filter P view)).
Proof.
  unfold num_column. pose proof (sum_abs_filter (cell c) P view).
  destruct t; simpl; [lia|lia|done].
Qed.

Lemma rounding_free_filter t c (P : AssetRecord → Prop) `{!∀ r, Decision (P r)}
    (view : AssetTable) :
  rounding_free t (num_column c view) → rounding_free t (num_column c (filter P view)).
Proof.
  unfold num_column. pose proof (sum_abs_filter (cell c) P view).
  destruct t; simpl; [done|lia|done].
Qed.

Lemma column_sum_num_column c (view : AssetTable) :
  Zsum (fillna0 <$> num_column c view) = column_sum c view.
Proof. unfold column_sum, num_column. by rewrite <- list_fmap_compose. Qed.

Lemma total_totals nm dt (c : NumCol) (view : AssetTable) :
  total c (totals nm dt view) = series_sum nm (dt c) (num_column c view).
Proof. by destruct c. Qed.

Lemma total_group_totals nm dt (c : NumCol) (rows : AssetTable) :
  total c (group_totals nm dt rows) = group_sum nm (dt c) (num_column c rows).
Proof. by destruct c. Qed.

Lemma series_sum_nil nm t : numerics_ok nm → series_sum nm t [] = 0.
Proof. intros Hok. rewrite series_sum_exact; [done|done|]. by destruct t. Qed.

Lemma totals_nil nm dt : numerics_ok nm → totals nm dt [] = zero_summary.
Proof.
  intros Hok. unfold totals, zero_summary, num_column. csimpl.
  by rewrite !series_sum_nil.
Qed.

Lemma filtered_data_nothing (table : AssetTable) : filtered_data table [] [] = [].
Proof.
  induction table as [|r table IH]; [done|].
  rewrite filtered_data_cons, IH. done.
Qed.

(** C2, as the code has it: each of the four totals is the sum of its
    column over the rows of the view whenever the absolute values of the
    column add up within the range of its dtype (below 2^63 for int64, at
    most 2^53 for float64); the total of an int64 column is in any case
    that sum reduced to 64 bits; and an empty view, such as the one an
    empty selection produces, has all four totals zero. *)
Theorem totals_column_sums (nm : Numerics) (dt : NumCol → dtype)
    (view : AssetTable) (c : NumCol) :
  numerics_ok nm →
  (in_range (dt c) (num_column c view) →
   total c (totals nm dt view) = Zsum ((fun r => default 0 (cell c r)) <$> view))
  ∧ (dt c = Int64 →
     total c (totals nm dt view)
     = wrap64 (Zsum ((fun r => default 0 (cell c r)) <$> view)))
  ∧ totals nm dt [] = zero_summary
  ∧ (∀ table : AssetTable, filtered_data table [] [] = []
                          ∧ totals nm dt (filtered_data table [] []) = zero_summary).
Proof.
  intros Hok. fold (column_sum c view). rewrite total_totals.
  split; [|split; [|split]].
  - intros Hr. by rewrite series_sum_exact, column_sum_num_column.
  - intros Ht. rewrite Ht. simpl. by rewrite fold_wrap64_0, column_sum_num_column.
  - by apply totals_nil.
  - intros table. rewrite filtered_data_nothing. split; [done|by apply totals_nil].
Qed.

Lemma totals_column_sums_witness :
  total Substation (totals reference_numerics all_int64 example_table)
  = Zsum ((fun r => default 0 (cell Substation r)) <$> example_table)
  ∧ total Substation (totals reference_numerics all_int64 example_big)
    = wrap64 (Zsum ((fun r => default 0 (cell Substation r)) <$> example_big)).
Proof.
  split.
  - apply (totals_column_sums reference_numerics all_int64 example_table Substation
             reference_numerics_ok).
    vm_compute. reflexivity.
  - apply (totals_column_sums reference_numerics all_int64 example_big Substation
             reference_numerics_ok).
    reflexivity.
Defined.

(** C2 as worded fails: two int64 counts of 2^62 have the sum 2^63, and
    their total is -2^63. *)
Lemma totals_wrap_counterexample :
  total Substation (totals reference_numerics all_int64 example_big) = - 2 ^ 63
  ∧ Zsum ((fun r => default 0 (cell Substation r)) <$> example_big) = 2 ^ 63
  ∧ total Substation (totals reference_numerics all_int64 example_big)
    ≠ Zsum ((fun r => default 0 (cell Substation r)) <$> example_big).
Proof. repeat split; vm_compute; congruence. Qed.

(** ** Grouping *)

Lemma elem_of_omap_key {K} (kf : AssetRecord → option K) (view : AssetTable) v :
  v ∈ omap kf view ↔ ∃ r, r ∈ view ∧ kf r = Some v.
Proof. apply list_elem_of_omap. Qed.

Lemma group_keys_NoDup k (view : AssetTable) : NoDup (group_keys k view).
Proof.
  unfold group_keys. rewrite merge_sort_Permutation. apply NoDup_unique.
Qed.

(** The groups come in key order, each key once. *)
Lemma group_keys_sorted k (view : AssetTable) :
  StronglySorted String.le (group_keys k view).
Proof. apply StronglySorted_merge_sort; apply _. Qed.

Lemma elem_of_group_keys k (view : AssetTable) v :
  v ∈ group_keys k view ↔ Some v ∈ column k view.
Proof.
  unfold group_keys, column.
  rewrite merge_sort_Permutation, elem_of_unique, elem_of_omap_key, list_elem_of_fmap.
  split; intros (r & ? & ?); exists r; done.
Qed.











(** ** The pivot *)

Lemma filter_ext_in {A} (P Q : A → Prop) `{!∀ x, Decision (P x), !∀ x, Decision (Q x)}
    (l : list A) :
  (∀ x, x ∈ l → (P x ↔ Q x)) → filter P l = filter Q l.
Proof.
  induction l as [|x l IH]; intros Hl; [done|].
  rewrite !filter_cons, IH by (intros y Hy; apply Hl; by right).
  apply decide_ext, Hl. left.
Qed.

Lemma key2_Some (row : AssetRecord) r z :
  key2 row = Some (r, z) ↔ region_name row = Some r ∧ z_name row = Some z.
Proof.
  unfold key2. destruct (region_name row), (z_name row); split;
    (intros [= -> ->] || intros [[= ->] [= ->]] || intros [? ?] || intros ?);
    done.
Qed.

(** Looking a key up in a list of entries whose value is a function of the key. *)
Lemma find_keyed {K V} `{EqDecision K} (h : K → V) (l : list (K * V)) (k : K) :
  (∀ e, e ∈ l → e.2 = h e.1) →
  find (fun e => bool_decide (e.1 = k)) l = if decide (k ∈ l.*1) then Some (k, h k) else None.
Proof.
  induction l as [|[k' v] l IH]; intros Hl; [done|]. simpl.
  case_bool_decide as Hk; simpl in Hk.
  - subst k'. rewrite decide_True by (csimpl; left).
    f_equal. f_equal. apply (Hl (k, v)). left.
  - rewrite IH by (intros e He; apply Hl; by right).
    destruct (decide (k ∈ l.*1)) as [Hin|Hin].
    + rewrite decide_True; [done|]. csimpl. by right.
    + rewrite decide_False; [done|]. csimpl. rewrite elem_of_cons.
      intros [?|?]; simpl in *; [congruence|done].
Qed.

Lemma fmap_keyed_fst {K V} (g : K → V) (ks : list K) :
  ((fun k => (k, g k)) <$> ks).*1 = ks.
Proof. induction ks as [|k ks IH]; csimpl; congruence. Qed.

Lemma fmap_keyed_snd {K V} (g : K → V) (ks : list K) e :
  e ∈ (fun k => (k, g k)) <$> ks → e.2 = g e.1.
Proof. intros (k & -> & _)%list_elem_of_fmap. done. Qed.

Lemma agged_keys nm dt (view : AssetTable) :
  (agged nm dt view).*1 = merge_sort pair_le (unique (omap key2 view)).
Proof. apply fmap_keyed_fst. Qed.

Lemma elem_of_agged_keys nm dt (view : AssetTable) p :
  p ∈ (agged nm dt view).*1 ↔ ∃ row, row ∈ view ∧ key2 row = Some p.
Proof.
  rewrite agged_keys, merge_sort_Permutation, elem_of_unique.
  apply elem_of_omap_key.
Qed.

Lemma get_group2_nil (view : AssetTable) p :
  (¬ ∃ row, row ∈ view ∧ key2 row = Some p) → get_group2 p view = [].
Proof.
  intros Hp. unfold get_group2. induction view as [|r view IH]; [done|].
  rewrite filter_cons_False.
  - apply IH. intros (row & ? & ?). apply Hp. exists row. split; [by right|done].
  - intros Hr. apply Hp. exists r. split; [left|done].
Qed.

Lemma group_sum_nil nm t : numerics_ok nm → group_sum nm t [] = 0.
Proof. intros Hok. rewrite group_sum_exact; [done|done|]. by destruct t. Qed.

(** A cell of the grid is the group sum of the rows with that region and
    zone, whether or not there is such a row. *)
Lemma unstack_cell_agged nm dt (view : AssetTable) r c z :
  numerics_ok nm →
  unstack_cell (agged nm dt view) r c z
  = group_sum nm (dt c) (num_column c (get_group2 (r, z) view)).
Proof.
  intros Hok. unfold unstack_cell, lookup_group.
  rewrite (find_keyed (fun p => group_totals nm dt (get_group2 p view)))
    by (intros e He;
        apply (fmap_keyed_snd (fun p => group_totals nm dt (get_group2 p view)) _ e He)).
  destruct (decide ((r, z) ∈ (agged nm dt view).*1)) as [Hin|Hin]; simpl.
  - apply total_group_totals.
  - rewrite get_group2_nil by (by rewrite <- elem_of_agged_keys).
    unfold num_column. csimpl. by rewrite group_sum_nil.
Qed.

Lemma elem_of_pivot_index nm dt (view : AssetTable) r :
  r ∈ pivot_index (agged nm dt view) ↔
  ∃ row z, row ∈ view ∧ key2 row = Some (r, z).
Proof.
  unfold pivot_index. rewrite merge_sort_Permutation, elem_of_unique.
  rewrite list_elem_of_fmap. split.
  - intros (e & -> & He). apply (list_elem_of_fmap_2 fst) in He.
    apply elem_of_agged_keys in He as (row & Hrow & Hk).
    exists row, e.1.2. split; [done|]. rewrite Hk. by destruct e.1.
  - intros (row & z & Hrow & Hk).
    assert ((r, z) ∈ (agged nm dt view).*1) as Hin
      by (apply elem_of_agged_keys; eauto).
    apply list_elem_of_fmap in Hin as (e & He & ?).
    exists e. split; [|done]. by rewrite <- He.
Qed.

Lemma elem_of_pivot_zones nm dt (view : AssetTable) z :
  z ∈ pivot_zones (agged nm dt view) ↔
  ∃ row r, row ∈ view ∧ key2 row = Some (r, z).
Proof.
  unfold pivot_zones. rewrite merge_sort_Permutation, elem_of_unique.
  rewrite list_elem_of_fmap. split.
  - intros (e & -> & He). apply (list_elem_of_fmap_2 fst) in He.
    apply elem_of_agged_keys in He as (row & Hrow & Hk).
    exists row, e.1.1. split; [done|]. rewrite Hk. by destruct e.1.
  - intros (row & r & Hrow & Hk).
    assert ((r, z) ∈ (agged nm dt view).*1) as Hin
      by (apply elem_of_agged_keys; eauto).
    apply list_elem_of_fmap in Hin as (e & He & ?).
    exists e. split; [|done]. by rewrite <- He.
Qed.

Lemma pivot_index_NoDup a : NoDup (pivot_index a).
Proof. unfold pivot_index. rewrite merge_sort_Permutation. apply NoDup_unique. Qed.

Lemma pivot_zones_NoDup a : NoDup (pivot_zones a).
Proof. unfold pivot_zones. rewrite merge_sort_Permutation. apply NoDup_unique. Qed.



Lemma unstack_row_cells a r c :
  ((c' ← value_columns; (fun z => ((c', z), unstack_cell a r c' z)) <$> pivot_zones a)
     ≫= fun e => if bool_decide (e.1.1 = c) then [e.2] else [])
  = unstack_cell a r c <$> pivot_zones a.
Proof.
  assert (∀ c' (zs : list string),
    (((fun z => ((c', z), unstack_cell a r c' z)) <$> zs)
       ≫= fun e => if bool_decide (e.1.1 = c) then [e.2] else [])
    = if decide (c' = c) then unstack_cell a r c <$> zs else []) as Hone.
  { intros c' zs. induction zs as [|z zs IH].
    - by destruct (decide (c' = c)).
    - rewrite fmap_cons, bind_cons, IH. simpl.
      case_bool_decide; destruct (decide (c' = c)); subst; done. }
  unfold value_columns.
  rewrite !bind_cons, !bind_app, !Hone.
  destruct c; simpl; by rewrite ?app_nil_r.
Qed.


Lemma get_group2_and (view : AssetTable) r z :
  get_group2 (r, z) view
  = filter (fun row => region_name row = Some r ∧ z_name row = Some z) view.
Proof. unfold get_group2. apply filter_ext_in. intros row _. apply key2_Some. Qed.


Lemma in_range_get_group2 t c p (view : AssetTable) :
  in_range t (num_column c view) → in_range t (num_column c (get_group2 p view)).
Proof. apply in_range_filter. Qed.

Lemma unstack_cell_exact nm dt (view : AssetTable) r c z :
  numerics_ok nm → in_range (dt c) (num_column c view) →
  unstack_cell (agged nm dt view) r c z
  = column_sum c (filter (fun row => region_name row = Some r ∧ z_name row = Some z) view).
Proof.
  intros Hok Hr. rewrite unstack_cell_agged by done.
  rewrite group_sum_exact, column_sum_num_column, get_group2_and;
    [done|done|by apply in_range_get_group2].
Qed.







(** ** Missing count cells *)








(** ** Data source and result cache *)

(** The three ways [load_data] can end. *)
Lemma load_data_cases (env : Env) (w : World) :
  match connect_answer env (connects w), query_answer env (queries w) with
  | false, _ =>
      load_data env w
      = (inl ConnectionError,
         mkWorld (S (connects w)) (queries w) (open_conns w) (cache w))
  | true, None =>
      load_data env w
      = (inl QueryError,
         mkWorld (S (connects w)) (S (queries w)) (connects w :: open_conns w) (cache w))
  | true, Some data =>
      load_data env w
      = (inr data,
         mkWorld (S (connects w)) (S (queries w))
                 (filter (fun c => c ≠ connects w) (open_conns w)) (cache w))
  end.
Proof.
  unfold load_data, mbind, M_bind, get_db_connection, read_sql, conn_close, mret, M_ret.
  destruct (connect_answer env (connects w)); [|done]. simpl.
  destruct (query_answer env (queries w)); [|done]. simpl.
  rewrite filter_cons_False by (intros H; by apply H). done.
Qed.

(** On success the connection that was opened is closed again. *)
Lemma load_data_success_closes (env : Env) (w w' : World) data :
  load_data env w = (inr data, w') →
  (connects w ∉ open_conns w') ∧ queries w' = S (queries w).
Proof.
  pose proof (load_data_cases env w) as H.
  destruct (connect_answer env (connects w)), (query_answer env (queries w));
    rewrite H; intros [= <- <-]; simpl.
  split; [|done]. rewrite list_elem_of_filter. intros [? _]. done.
Qed.

(** C8, failing path: when the connection is made and the query is
    rejected, [load_data] raises with the connection still open. *)
Theorem load_data_query_error_leaves_connection_open :
  load_data env_query_fails init_world
  = (inl QueryError, mkWorld 1 1 [0%nat] None)
  ∧ 0%nat ∈ open_conns (load_data env_query_fails init_world).2.
Proof.
  split; [reflexivity|]. simpl. apply elem_of_cons. by left.
Qed.

Section ResultCache.
Context (env : Env).

(** A stored table is returned without touching the world: no connection
    is opened and no query is issued. *)
Lemma cache_hit (w : World) data :
  cache w = Some data → load_data_cached env w = (inr data, w).
Proof. intros H. unfold load_data_cached, cache_data. by rewrite H. Qed.

Lemma cache_miss (w : World) :
  cache w = None →
  connects (load_data_cached env w).2 = S (connects w)
  ∧ ∀ data w', load_data_cached env w = (inr data, w') →
      cache w' = Some data
      ∧ query_answer env (queries w) = Some data
      ∧ queries w' = S (queries w).
Proof.
  intros Hc. unfold load_data_cached, cache_data. rewrite Hc.
  pose proof (load_data_cases env w) as H.
  destruct (connect_answer env (connects w)), (query_answer env (queries w));
    rewrite H; simpl; (split; [done|]); intros data w' [= <- <-]; done.
Qed.

Lemma load_data_cached_failure (w w' : World) e :
  load_data_cached env w = (inl e, w') →
  cache w = None ∧ cache w' = None
  ∧ completed_loads env (queries w') = completed_loads env (queries w).
Proof.
  unfold load_data_cached, cache_data.
  destruct (cache w) as [d|] eqn:Hc; [done|].
  pose proof (load_data_cases env w) as H.
  destruct (connect_answer env (connects w)),
           (query_answer env (queries w)) eqn:Hq;
    rewrite H; intros [= <- <-]; simpl; rewrite ?Hq; done.
Qed.

(** Once a table is stored, every run returns it and the database is left
    alone. *)
Lemma runs_hit (n : nat) (w : World) data :
  cache w = Some data →
  (runs env n w).1 = replicate n (inr data)
  ∧ cache (runs env n w).2 = Some data
  ∧ connects (runs env n w).2 = connects w
  ∧ queries (runs env n w).2 = queries w.
Proof.
  revert w. induction n as [|n IH]; intros w Hc; [done|].
  simpl. rewrite (cache_hit (release w) data Hc).
  destruct (IH (release w) Hc) as (H1 & H2 & H3 & H4).
  destruct (runs env n (release w)) as [rest w'']. simpl in *.
  rewrite H1. done.
Qed.

Lemma load_data_cached_inv (w : World) :
  cache_inv env w → cache_inv env (load_data_cached env w).2.
Proof.
  intros Hinv. destruct (cache w) as [d|] eqn:Hc.
  - by rewrite (cache_hit w d Hc).
  - destruct (load_data_cached env w) as [[e|d] w'] eqn:Hl; simpl.
    + apply load_data_cached_failure in Hl as (_ & Hc' & Hq).
      unfold cache_inv in *. rewrite Hc in Hinv. by rewrite Hc', Hq.
    + apply cache_miss in Hl as (Hc' & Hq & Hq'); [|done].
      unfold cache_inv in *. rewrite Hc', Hq'. simpl. rewrite Hq.
      rewrite Hc in Hinv. by rewrite Hinv.
Qed.

Lemma runs_inv (n : nat) (w : World) :
  cache_inv env w → cache_inv env (runs env n w).2.
Proof.
  revert w. induction n as [|n IH]; intros w Hinv; [done|].
  simpl. pose proof (load_data_cached_inv (release w) Hinv) as H.
  destruct (load_data_cached env (release w)) as [res w'].
  specialize (IH w' H). destruct (runs env n w') as [rest w'']. done.
Qed.

Lemma runs_after_success (n : nat) (w : World) i j data :
  (i ≤ j < n)%nat →
  (runs env n w).1 !! i = Some (inr data) →
  (runs env n w).1 !! j = Some (inr data).
Proof.
  revert w i j. induction n as [|n IH]; intros w i j Hij; [lia|].
  simpl. destruct (load_data_cached env (release w)) as [res w'] eqn:Hl.
  destruct (runs env n w') as [rest w''] eqn:Hr. simpl.
  destruct i as [|i].
  - simpl. intros [= ->]. destruct j as [|j]; [done|]. simpl.
    assert (cache w' = Some data) as Hc.
    { destruct (cache (release w)) as [d|] eqn:Hc.
      - rewrite (cache_hit (release w) d Hc) in Hl. by injection Hl as <- <-.
      - by apply cache_miss in Hl as (? & _). }
    destruct (runs_hit n w' data Hc) as (Hres & _). rewrite Hr in Hres.
    simpl in Hres. rewrite Hres. apply lookup_replicate_2. lia.
  - destruct j as [|j]; [lia|]. simpl.
    specialize (IH w' i j). rewrite Hr in IH. apply IH. lia.
Qed.

(** C7, as the code has it: in a process that starts with an empty cache,
    the first call goes to the database and, if it returns a table, stores
    it; a call that finds a stored table returns it and leaves the world as
    it is (no connection, no query); a call that finds no stored table goes
    to the database, and one that raises stores nothing, so the load is
    tried again by the next call; over any number of runs at most one load
    is completed, and from the first table returned on every call returns
    that table. *)
Theorem result_cache_loads_once (n : nat) :
  connects (load_data_cached env init_world).2 = 1%nat
  ∧ (∀ data w, load_data_cached env init_world = (inr data, w) →
       cache w = Some data ∧ queries w = 1%nat ∧ query_answer env 0 = Some data)
  ∧ (∀ w data, cache w = Some data → load_data_cached env w = (inr data, w))
  ∧ (∀ w e w', load_data_cached env w = (inl e, w') →
       cache w' = None
       ∧ connects (load_data_cached env (release w')).2 = S (connects w'))
  ∧ (completed_loads env (queries (runs env n init_world).2) ≤ 1)%nat
  ∧ (∀ i j data, (i ≤ j < n)%nat →
       (runs env n init_world).1 !! i = Some (inr data) →
       (runs env n init_world).1 !! j = Some (inr data)).
Proof.
  destruct (cache_miss init_world eq_refl) as [Hconn Hstore].
  split; [done|]. split; [|split; [|split; [|split]]].
  - intros data w Hl. destruct (Hstore data w Hl) as (? & ? & ?). done.
  - intros w data. apply cache_hit.
  - intros w e w' Hl. apply load_data_cached_failure in Hl as (_ & Hc' & _).
    split; [done|]. by destruct (cache_miss (release w') Hc') as [-> _].
  - assert (cache_inv env (runs env n init_world).2) as Hinv
      by (by apply runs_inv).
    unfold cache_inv in Hinv.
    destruct (cache (runs env n init_world).2); lia.
  - intros i j data. apply runs_after_success.
Qed.

End ResultCache.

Lemma result_cache_loads_once_witness :
  runs (env_ok example_table) 3 init_world
  = (replicate 3 (inr example_table), mkWorld 1 1 [] (Some example_table))
  ∧ (runs (env_ok example_table) 3 init_world).1 !! 2%nat = Some (inr example_table).
Proof.
  destruct (result_cache_loads_once (env_ok example_table) 3)
    as (_ & _ & _ & _ & _ & Hafter).
  split; [reflexivity|].
  apply (Hafter 0%nat 2%nat); [lia|reflexivity].
Defined.

(** A load that fails stores nothing, so the next run goes to the database
    again; the table of the first completed load is then kept. *)
Example failed_load_is_retried :
  runs (env_late example_table) 3 init_world
  = ([inl ConnectionError; inr example_table; inr example_table],
     mkWorld 2 1 [] (Some example_table)).
Proof. reflexivity. Qed.

(** C7 as worded fails: against a database that rejects the query, the
    second call does not return a stored table; it connects and queries
    again, so the load is performed twice in one process. *)
Lemma load_repeated_counterexample :
  (runs env_query_fails 2 init_world).1 = [inl QueryError; inl QueryError]
  ∧ connects (runs env_query_fails 2 init_world).2 = 2%nat
  ∧ queries (runs env_query_fails 2 init_world).2 = 2%nat
  ∧ cache (runs env_query_fails 2 init_world).2 = None.
Proof. repeat split; reflexivity. Qed.
(** ** CSV export *)

Local Open Scope string_scope.




Lemma special_false (a : ascii) :
  special true a = false →
  Ascii.eqb a comma = false ∧ Ascii.eqb a dquote = false
  ∧ Ascii.eqb a newline = false ∧ Ascii.eqb a creturn = false.
Proof.
  unfold special. intros H.
  repeat (apply orb_false_iff in H as [H ?]). done.
Qed.










(** *** Count cells *)








Lemma format_cell_plain nm t (x : option Z) :
  numerics_ok nm → has_special true (format_cell nm t x) = false.
Proof.
  intros (_ & _ & _ & Hplain & _). destruct x as [z|]; [|done].
  destruct t; simpl; [apply str_of_Z_plain|apply Hplain|apply str_of_Z_plain].
Qed.









(** * Further properties of the dashboard's code *)

Local Open Scope list_scope.
Local Open Scope Z_scope.

(** ** The options and the filter (lines 76-90) *)

Lemma unique_from_sublist {A} `{EqDecision A} (seen l : list A) :
  unique_from seen l `sublist_of` l.
Proof.
  revert seen. induction l as [|x l IH]; intros seen; simpl; [constructor|].
  case_bool_decide; [apply sublist_cons|apply sublist_skip]; apply IH.
Qed.

Lemma unique_from_snoc {A} `{EqDecision A} (seen l : list A) (x : A) :
  unique_from seen (l ++ [x])
  = if decide (x ∈ seen ∨ x ∈ l) then unique_from seen l
    else unique_from seen l ++ [x].
Proof.
  revert seen. induction l as [|y l IH]; intros seen; simpl.
  - case_bool_decide as Hx.
    + rewrite decide_True by (by left). done.
    + rewrite decide_False; [done|]. intros [?|?%elem_of_nil]; done.
  - case_bool_decide as Hy.
    + rewrite IH. apply decide_ext. rewrite elem_of_cons.
      split; [tauto|]. intros [?|[->|?]]; tauto.
    + rewrite IH. rewrite (decide_ext _ (x ∈ seen ∨ x ∈ y :: l)); [by destruct (decide _)|].
      rewrite !elem_of_cons. tauto.
Qed.

(** X1: the options of a multiselect, [unique()] of a key column, list
    every value of the column once, in the order of first appearance: they
    are a subsequence of the column without duplicates, and a further value
    at the end of the column is appended to them when it is new and
    changes nothing when it is not.  NULL is a value like the others. *)
Theorem unique_lists_first_appearances (l : list (option string)) (x : option string) :
  NoDup (unique l)
  ∧ (∀ y, y ∈ unique l ↔ y ∈ l)
  ∧ unique l `sublist_of` l
  ∧ unique (l ++ [x]) = (if decide (x ∈ l) then unique l else unique l ++ [x]).
Proof.
  split; [apply NoDup_unique|]. split; [apply elem_of_unique|].
  split; [apply unique_from_sublist|].
  unfold unique. rewrite unique_from_snoc. apply decide_ext.
  rewrite elem_of_nil. tauto.
Qed.

(** X2: with nothing selected in either control the view is empty,
    whatever the other control holds. *)
Theorem filter_empty_selection (table : AssetTable)
    (regions zones : list (option string)) :
  filtered_data table [] zones = [] ∧ filtered_data table regions [] = [].
Proof.
  rewrite !filtered_data_filter. split; apply filter_none;
    intros r _ [H1 H2]; by apply elem_of_nil in H1 || by apply elem_of_nil in H2.
Qed.

(** X3: the view depends on a selection only through which of the values
    present in the table it contains: the order of the selected values,
    repetitions among them and values that do not occur in the table make
    no difference. *)
Theorem filter_selection_as_set (table : AssetTable)
    (regions regions' zones zones' : list (option string)) :
  (∀ x, x ∈ column RegionName table → (x ∈ regions ↔ x ∈ regions')) →
  (∀ x, x ∈ column ZName table → (x ∈ zones ↔ x ∈ zones')) →
  filtered_data table regions zones = filtered_data table regions' zones'.
Proof.
  intros Hr Hz. rewrite !filtered_data_filter. apply filter_ext_in.
  intros r Hin. unfold selected.
  rewrite (Hr (region_name r)) by (by apply (list_elem_of_fmap_2 (key RegionName))).
  rewrite (Hz (z_name r)) by (by apply (list_elem_of_fmap_2 (key ZName))).
  done.
Qed.

Lemma filter_selection_as_set_witness :
  filtered_data example_table [Some "B"; Some "A"; Some "A"; Some "Q"] [Some "X"]
  = filtered_data example_table [Some "A"; Some "B"] [Some "X"; Some "X"].
Proof.
  apply filter_selection_as_set.
  - intros x Hx. unfold example_table in Hx. csimpl in Hx.
    repeat (apply elem_of_cons in Hx as [->|Hx];
            [rewrite !elem_of_cons; split; intros _; auto|]).
    by apply elem_of_nil in Hx.
  - intros x Hx. rewrite !elem_of_cons. tauto.
Defined.

(** X4: filtering a view again is filtering the table once with the values
    selected both times, so two filters can be applied in either order. *)
Theorem filter_twice (table : AssetTable)
    (regions regions' zones zones' : list (option string)) :
  filtered_data (filtered_data table regions zones) regions' zones'
  = filtered_data table (filter (fun x => x ∈ regions') regions)
                        (filter (fun x => x ∈ zones') zones)
  ∧ filtered_data (filtered_data table regions zones) regions' zones'
    = filtered_data (filtered_data table regions' zones') regions zones.
Proof.
  rewrite !filtered_data_filter, !list_filter_filter. split.
  - apply filter_ext_in. intros r _. unfold selected.
    rewrite !list_elem_of_filter. tauto.
  - apply filter_ext_in. intros r _. tauto.
Qed.

(** X5: the filter works row by row: the view of two tables put one after
    the other is the two views put one after the other, and a view never
    has more rows than its table. *)
Theorem filter_row_by_row (t1 t2 : AssetTable) (regions zones : list (option string)) :
  filtered_data (t1 ++ t2) regions zones
  = filtered_data t1 regions zones ++ filtered_data t2 regions zones
  ∧ (length (filtered_data t1 regions zones) ≤ length t1)%nat.
Proof.
  rewrite !filtered_data_filter. split; [apply filter_app|apply length_filter].
Qed.

(** ** Totals (lines 93-96) *)

Lemma column_sum_app c (v1 v2 : AssetTable) :
  column_sum c (v1 ++ v2) = column_sum c v1 + column_sum c v2.
Proof. unfold column_sum. by rewrite fmap_app, Zsum_app. Qed.

Lemma column_sum_Permutation c (v v' : AssetTable) :
  v ≡ₚ v' → column_sum c v = column_sum c v'.
Proof. intros Hp. unfold column_sum. apply Zsum_Permutation. by rewrite Hp. Qed.

Lemma sum_abs_column_app c (v1 v2 : AssetTable) :
  sum_abs (fillna0 <$> num_column c (v1 ++ v2))
  = sum_abs (fillna0 <$> num_column c v1) + sum_abs (fillna0 <$> num_column c v2).
Proof. unfold num_column. by rewrite !fmap_app, sum_abs_app. Qed.

Lemma sum_abs_column_Permutation c (v v' : AssetTable) :
  v ≡ₚ v' →
  sum_abs (fillna0 <$> num_column c v) = sum_abs (fillna0 <$> num_column c v').
Proof.
  intros Hp. unfold sum_abs, num_column. apply Zsum_Permutation. by rewrite Hp.
Qed.

Lemma rounding_free_app t c (v1 v2 : AssetTable) :
  rounding_free t (num_column c (v1 ++ v2)) →
  rounding_free t (num_column c v1) ∧ rounding_free t (num_column c v2).
Proof.
  pose proof (sum_abs_column_app c v1 v2).
  pose proof (sum_abs_nonneg (fillna0 <$> num_column c v1)).
  pose proof (sum_abs_nonneg (fillna0 <$> num_column c v2)).
  destruct t; simpl; [done|lia|done].
Qed.

Lemma rounding_free_Permutation t c (v v' : AssetTable) :
  v ≡ₚ v' → rounding_free t (num_column c v) → rounding_free t (num_column c v').
Proof.
  intros Hp. pose proof (sum_abs_column_Permutation c v v' Hp).
  destruct t; simpl; [done|lia|done].
Qed.

Lemma total_reduce nm dt c (view : AssetTable) :
  numerics_ok nm → rounding_free (dt c) (num_column c view) →
  total c (totals nm dt view) = reduce (dt c) (column_sum c view).
Proof.
  intros Hok Hr. by rewrite total_totals, series_sum_reduce, column_sum_num_column.
Qed.

Lemma total_exact nm dt c (view : AssetTable) :
  numerics_ok nm → in_range (dt c) (num_column c view) →
  total c (totals nm dt view) = column_sum c view.
Proof.
  intros Hok Hr. by rewrite total_totals, series_sum_exact, column_sum_num_column.
Qed.

Lemma reduce_add t (a b : Z) : reduce t (reduce t a + reduce t b) = reduce t (a + b).
Proof. destruct t; simpl; [|done..]. by rewrite wrap64_add_l, wrap64_add_r. Qed.

(** X6: as long as no float64 sum is rounded, the total of two views put
    together is the sum of their totals in the arithmetic of the column
    (modulo 2^64 for int64), and a total does not depend on the order of
    the rows. *)
Theorem totals_additive_order_free (nm : Numerics) (dt : NumCol → dtype)
    (v1 v2 v' : AssetTable) (c : NumCol) :
  numerics_ok nm →
  rounding_free (dt c) (num_column c (v1 ++ v2)) →
  v1 ≡ₚ v' →
  total c (totals nm dt (v1 ++ v2))
  = reduce (dt c) (total c (totals nm dt v1) + total c (totals nm dt v2))
  ∧ total c (totals nm dt v1) = total c (totals nm dt v').
Proof.
  intros Hok Hr Hp. destruct (rounding_free_app _ _ _ _ Hr) as [Hr1 Hr2].
  rewrite !total_reduce by eauto using rounding_free_Permutation.
  rewrite reduce_add, column_sum_app.
  by rewrite (column_sum_Permutation c v1 v' Hp).
Qed.

Lemma totals_additive_order_free_witness :
  total Dtc (totals reference_numerics all_float64 (example_table ++ example_missing))
  = reduce Float64
      (total Dtc (totals reference_numerics all_float64 example_table)
       + total Dtc (totals reference_numerics all_float64 example_missing))
  ∧ total Dtc (totals reference_numerics all_float64 example_table)
    = total Dtc (totals reference_numerics all_float64 (reverse example_table)).
Proof.
  apply (totals_additive_order_free reference_numerics all_float64
           example_table example_missing (reverse example_table) Dtc
           reference_numerics_ok).
  - vm_compute. discriminate.
  - symmetry. apply reverse_Permutation.
Defined.

Lemma column_sum_filter_bounds c (P : AssetRecord → Prop) `{!∀ r, Decision (P r)}
    (table : AssetTable) :
  (∀ r z, r ∈ table → cell c r = Some z → 0 ≤ z) →
  0 ≤ column_sum c (filter P table) ≤ column_sum c table.
Proof.
  unfold column_sum. induction table as [|r table IH]; intros Hpos; [done|].
  assert (0 ≤ default 0 (cell c r)) as Hr.
  { destruct (cell c r) as [z|] eqn:Hc; [|done]. apply (Hpos r z); [left|done]. }
  assert (0 ≤ Zsum ((fun r => default 0 (cell c r)) <$> filter P table)
          ≤ Zsum ((fun r => default 0 (cell c r)) <$> table)) as IH'.
  { apply IH. intros r' z Hr'. apply Hpos. by right. }
  rewrite filter_cons. destruct (decide (P r)); csimpl; lia.
Qed.

(** X7: when no count of a column is negative and the counts of the table
    add up within the range of the column's dtype, the metric of a filtered
    view lies between zero and the metric of the whole table. *)
Theorem filtered_total_bounds (nm : Numerics) (dt : NumCol → dtype)
    (table : AssetTable) (regions zones : list (option string)) (c : NumCol) :
  numerics_ok nm →
  in_range (dt c) (num_column c table) →
  (∀ r z, r ∈ table → cell c r = Some z → 0 ≤ z) →
  0 ≤ total c (totals nm dt (filtered_data table regions zones))
    ≤ total c (totals nm dt table).
Proof.
  intros Hok Hr Hpos. rewrite filtered_data_filter.
  rewrite !total_exact by (done || by apply in_range_filter).
  by apply column_sum_filter_bounds.
Qed.

Lemma filtered_total_bounds_witness :
  0 ≤ total Substation
        (totals reference_numerics all_int64
           (filtered_data example_table [Some "A"] [Some "X"]))
    ≤ total Substation (totals reference_numerics all_int64 example_table).
Proof.
  apply (filtered_total_bounds reference_numerics all_int64 example_table
           [Some "A"] [Some "X"] Substation reference_numerics_ok).
  - vm_compute. reflexivity.
  - intros r z Hr Hc. unfold example_table in Hr.
    repeat (apply elem_of_cons in Hr as [->|Hr]; [injection Hc as <-; lia|]).
    by apply elem_of_nil in Hr.
Defined.

(** X21: the metric of a selection of several regions is the sum of the
    metrics of its regions selected one at a time, the zones being the
    same, provided no region is listed twice and the counts of the table
    add up within the range of the column's dtype. *)
Theorem selection_totals_add_up (nm : Numerics) (dt : NumCol → dtype)
    (table : AssetTable) (regions zones : list (option string)) (c : NumCol) :
  numerics_ok nm →
  in_range (dt c) (num_column c table) →
  NoDup regions →
  total c (totals nm dt (filtered_data table regions zones))
  = Zsum ((fun r => total c (totals nm dt (filtered_data table [r] zones)))
            <$> regions).
Proof.
  intros Hok Hr Hnd. rewrite filtered_data_filter.
  rewrite total_exact by (done || by apply in_range_filter).
  set (view := filter (selected regions zones) table).
  rewrite (Zsum_fmap_ext _
    (fun r => Zsum ((fun row => default 0 (cell c row))
                      <$> filter (fun row => Some (region_name row) = Some r) view))).
  - symmetry. unfold column_sum.
    rewrite (Zsum_partition (fun row => Some (region_name row)) _ regions view Hnd).
    + by rewrite filter_all.
    + intros row v [[Hreg _] _]%list_elem_of_filter [= <-]. done.
  - intros r Hin. rewrite filtered_data_filter.
    rewrite total_exact by (done || by apply in_range_filter).
    unfold column_sum, view. rewrite list_filter_filter.
    f_equal. f_equal. apply filter_ext_in. intros row _. unfold selected.
    rewrite list_elem_of_singleton. split.
    + intros [-> ?]. split; [done|]. tauto.
    + intros [[= <-] [_ ?]]. tauto.
Qed.

Lemma selection_totals_add_up_witness :
  total Dtc (totals reference_numerics all_int64
               (filtered_data example_table [Some "A"; Some "B"] [Some "X"]))
  = Zsum ((fun r => total Dtc (totals reference_numerics all_int64
                                 (filtered_data example_table [r] [Some "X"])))
            <$> [Some "A"; Some "B"]).
Proof.
  apply (selection_totals_add_up reference_numerics all_int64 example_table
           [Some "A"; Some "B"] [Some "X"] Dtc reference_numerics_ok).
  - vm_compute. reflexivity.
  - apply NoDup_cons. split.
    + rewrite list_elem_of_singleton. done.
    + apply NoDup_singleton.
Defined.
(** ** Grouped frames (lines 107 and 133) *)

Lemma sorted_keys_eq (l1 l2 : list string) :
  StronglySorted String.le l1 → StronglySorted String.le l2 →
  NoDup l1 → NoDup l2 → (∀ x, x ∈ l1 ↔ x ∈ l2) → l1 = l2.
Proof.
  intros Hs1 Hs2 Hn1 Hn2 Hel.
  apply (StronglySorted_unique String.le); [done..|].
  by apply NoDup_Permutation.
Qed.

Lemma sorted_unique_ext (a b : list string) :
  (∀ x, x ∈ a ↔ x ∈ b) →
  merge_sort String.le (unique a) = merge_sort String.le (unique b).
Proof.
  intros Hab. apply sorted_keys_eq.
  - apply StronglySorted_merge_sort; apply _.
  - apply StronglySorted_merge_sort; apply _.
  - rewrite merge_sort_Permutation. apply NoDup_unique.
  - rewrite merge_sort_Permutation. apply NoDup_unique.
  - intros x. by rewrite !merge_sort_Permutation, !elem_of_unique.
Qed.


Lemma group_totals_exact nm dt c (view : AssetTable) (P : AssetRecord → Prop)
    `{!∀ r, Decision (P r)} :
  numerics_ok nm → in_range (dt c) (num_column c view) →
  total c (group_totals nm dt (filter P view)) = column_sum c (filter P view).
Proof.
  intros Hok Hr.
  rewrite total_group_totals, group_sum_exact, column_sum_num_column;
    [done|done|by apply in_range_filter].
Qed.



Lemma group_keys_Permutation k (v v' : AssetTable) :
  v ≡ₚ v' → group_keys k v = group_keys k v'.
Proof.
  intros Hp. unfold group_keys. apply sorted_unique_ext.
  intros x. by rewrite Hp.
Qed.

Lemma group_totals_Permutation nm dt (rows rows' : AssetTable) :
  numerics_ok nm → (∀ c, rounding_free (dt c) (num_column c rows)) →
  rows ≡ₚ rows' → group_totals nm dt rows = group_totals nm dt rows'.
Proof.
  intros Hok Hr Hp.
  assert (∀ c, group_sum nm (dt c) (num_column c rows)
               = group_sum nm (dt c) (num_column c rows')) as H.
  { intros c. rewrite !group_sum_reduce, !column_sum_num_column;
      [by rewrite (column_sum_Permutation c rows rows' Hp)|done| |done|done].
    by apply (rounding_free_Permutation _ _ rows). }
  unfold group_totals. by rewrite !H.
Qed.

(** X9: the keys and the sums of a grouped frame, which is what the bar
    charts show, do not depend on the order of the rows of the view, as
    long as no float64 sum is rounded. *)
Theorem groupby_order_free (nm : Numerics) (dt : NumCol → dtype)
    (view view' : AssetTable) (k : KeyCol) :
  numerics_ok nm →
  (∀ c, rounding_free (dt c) (num_column c view)) →
  view ≡ₚ view' →
  (fun e => (g_key e, g_sums e)) <$> groupby_sum nm dt k view
  = (fun e => (g_key e, g_sums e)) <$> groupby_sum nm dt k view'.
Proof.
  intros Hok Hr Hp. unfold groupby_sum.
  rewrite (group_keys_Permutation k view view' Hp), <- !list_fmap_compose.
  apply list_fmap_ext. intros _ v _. simpl. f_equal.
  apply group_totals_Permutation; [done| |].
  - intros c. by apply rounding_free_filter.
  - unfold get_group. by rewrite Hp.
Qed.

Lemma groupby_order_free_witness :
  (fun e => (g_key e, g_sums e))
    <$> region_data reference_numerics all_int64 example_table
  = (fun e => (g_key e, g_sums e))
      <$> region_data reference_numerics all_int64 (reverse example_table).
Proof.
  apply (groupby_order_free reference_numerics all_int64 example_table
           (reverse example_table) RegionName reference_numerics_ok).
  - intros c. exact I.
  - symmetry. apply reverse_Permutation.
Defined.

(** The concatenated texts of a group do depend on the order of the rows. *)
Example groupby_text_order :
  g_text <$> region_data reference_numerics all_int64 example_table
  = [[Some "XY"; Some "c1c2"]; [Some "X"; Some "c3"]]
  ∧ g_text <$> region_data reference_numerics all_int64 (reverse example_table)
    = [[Some "YX"; Some "c2c1"]; [Some "X"; Some "c3"]].
Proof. split; vm_compute; reflexivity. Qed.

Lemma StronglySorted_filter {A} (R : relation A) (P : A → Prop)
    `{!∀ x, Decision (P x)} (l : list A) :
  StronglySorted R l → StronglySorted R (filter P l).
Proof.
  induction 1 as [|x l Hs IH Hx]; [constructor|].
  rewrite filter_cons. destruct (decide (P x)); [|done].
  constructor; [done|]. apply Forall_forall. intros y [_ Hy]%list_elem_of_filter.
  by apply (proj1 (Forall_forall _ _) Hx).
Qed.

Lemma filter_fmap_key {A B} (f : A → B) (P : B → Prop) `{!∀ y, Decision (P y)}
    (l : list A) :
  filter P (f <$> l) = f <$> filter (fun x => P (f x)) l.
Proof.
  induction l as [|x l IH]; [done|]. csimpl.
  rewrite !filter_cons. destruct (decide (P (f x))); csimpl; by rewrite IH.
Qed.

Lemma fmap_ext_in {A B} (f g : A → B) (l : list A) :
  (∀ x, x ∈ l → f x = g x) → f <$> l = g <$> l.
Proof.
  intros H. apply list_fmap_ext. intros i x Hx. apply H.
  by apply list_elem_of_lookup_2 in Hx.
Qed.

(** Restricting the rows by their key keeps the groups of the keys that
    pass, as they are. *)
Lemma groupby_filter_key nm dt k (sel : list (option string)) (table : AssetTable) :
  groupby_sum nm dt k (filter (fun r => key k r ∈ sel) table)
  = filter (fun e => Some (g_key e) ∈ sel) (groupby_sum nm dt k table).
Proof.
  unfold groupby_sum. rewrite filter_fmap_key. cbn [g_key].
  assert (group_keys k (filter (fun r => key k r ∈ sel) table)
          = filter (fun x => Some x ∈ sel) (group_keys k table)) as ->.
  { apply sorted_keys_eq.
    - apply group_keys_sorted.
    - apply StronglySorted_filter, group_keys_sorted.
    - apply group_keys_NoDup.
    - apply NoDup_filter, group_keys_NoDup.
    - intros x. rewrite list_elem_of_filter, !elem_of_group_keys.
      unfold column. rewrite !list_elem_of_fmap. split.
      + intros (r & Hk & [HP Hr]%list_elem_of_filter).
        split; [by rewrite Hk|eauto].
      + intros [HP (r & Hk & Hr)]. exists r. split; [done|].
        apply list_elem_of_filter. split; [by rewrite <- Hk|done]. }
  apply fmap_ext_in. intros v [Hv _]%list_elem_of_filter.
  assert (get_group k v (filter (fun r => key k r ∈ sel) table) = get_group k v table)
    as ->; [|done].
  unfold get_group. rewrite list_filter_filter. apply filter_ext_in.
  intros r _. split; [tauto|]. intros Hk. split; [done|]. by rewrite Hk.
Qed.

(** X10: selecting regions while all zones stay selected only selects bars
    of the region chart: the grouped frame of the view is the grouped
    frame of the whole table restricted to the selected regions, each bar
    unchanged; and likewise for zones with all regions selected. *)
Theorem selection_selects_groups (nm : Numerics) (dt : NumCol → dtype)
    (table : AssetTable) (regions zones : list (option string)) :
  region_data nm dt (filtered_data table regions (default_zone table))
  = filter (fun e => Some (g_key e) ∈ regions) (region_data nm dt table)
  ∧ zone_data nm dt (filtered_data table (default_region table) zones)
    = filter (fun e => Some (g_key e) ∈ zones) (zone_data nm dt table).
Proof.
  unfold region_data, zone_data. split.
  - assert (filtered_data table regions (default_zone table)
            = filter (fun r => key RegionName r ∈ regions) table) as ->.
    { rewrite filtered_data_filter. apply filter_ext_in. intros r Hr.
      unfold selected, default_zone. rewrite elem_of_unique. simpl.
      split; [tauto|]. intros ?. split; [done|].
      by apply (list_elem_of_fmap_2 (key ZName)). }
    apply groupby_filter_key.
  - assert (filtered_data table (default_region table) zones
            = filter (fun r => key ZName r ∈ zones) table) as ->.
    { rewrite filtered_data_filter. apply filter_ext_in. intros r Hr.
      unfold selected, default_region. rewrite elem_of_unique. simpl.
      split; [tauto|]. intros ?. split; [|done].
      by apply (list_elem_of_fmap_2 (key RegionName)). }
    apply groupby_filter_key.
Qed.
(** ** The pivot (lines 144-150) *)

Lemma pivot_index_group_keys nm dt (view : AssetTable) :
  pivot_index (agged nm dt view)
  = group_keys RegionName (filter (fun row => is_Some (z_name row)) view).
Proof.
  apply sorted_keys_eq.
  - apply StronglySorted_merge_sort; apply _.
  - apply group_keys_sorted.
  - apply pivot_index_NoDup.
  - apply group_keys_NoDup.
  - intros x. rewrite elem_of_pivot_index, elem_of_group_keys.
    unfold column. rewrite list_elem_of_fmap. split.
    + intros (row & z & Hrow & [Hr Hz]%key2_Some). exists row. split; [done|].
      apply list_elem_of_filter. split; [by rewrite Hz|done].
    + intros (row & Hr & [[z Hz] Hrow]%list_elem_of_filter).
      exists row, z. split; [done|]. by apply key2_Some.
Qed.

Lemma pivot_zones_group_keys nm dt (view : AssetTable) :
  pivot_zones (agged nm dt view)
  = group_keys ZName (filter (fun row => is_Some (region_name row)) view).
Proof.
  apply sorted_keys_eq.
  - apply StronglySorted_merge_sort; apply _.
  - apply group_keys_sorted.
  - apply pivot_zones_NoDup.
  - apply group_keys_NoDup.
  - intros x. rewrite elem_of_pivot_zones, elem_of_group_keys.
    unfold column. rewrite list_elem_of_fmap. split.
    + intros (row & r & Hrow & [Hr Hz]%key2_Some). exists row. split; [done|].
      apply list_elem_of_filter. split; [by rewrite Hr|done].
    + intros (row & Hz & [[r Hr] Hrow]%list_elem_of_filter).
      exists row, r. split; [done|]. by apply key2_Some.
Qed.

Lemma unstack_cell_reduce nm dt (view : AssetTable) r c z :
  numerics_ok nm → rounding_free (dt c) (num_column c view) →
  unstack_cell (agged nm dt view) r c z
  = reduce (dt c)
      (column_sum c (filter (fun row => region_name row = Some r ∧ z_name row = Some z)
                            view)).
Proof.
  intros Hok Hr. rewrite unstack_cell_agged by done.
  rewrite group_sum_reduce, column_sum_num_column, get_group2_and;
    [done|done|by apply rounding_free_filter].
Qed.

Lemma heatmap_data_closed nm dt (view : AssetTable) :
  numerics_ok nm → (∀ c, rounding_free (dt c) (num_column c view)) →
  heatmap_data nm dt view
  = (fun r =>
       (r, c ← value_columns;
           (fun z => ((c, z),
                      reduce (dt c)
                        (column_sum c (filter (fun row => region_name row = Some r
                                                          ∧ z_name row = Some z) view))))
             <$> group_keys ZName (filter (fun row => is_Some (region_name row)) view)))
      <$> group_keys RegionName (filter (fun row => is_Some (z_name row)) view).
Proof.
  intros Hok Hr. unfold heatmap_data, unstack.
  rewrite pivot_index_group_keys, pivot_zones_group_keys.
  apply list_fmap_ext. intros _ r _. f_equal.
  apply list_bind_ext; [|done]. intros c.
  apply list_fmap_ext. intros _ z _.
  by rewrite unstack_cell_reduce.
Qed.

Lemma grid_row_labels {C Zn V} (g : C → Zn → V) (cols : list C) (zs : list Zn) :
  (c ← cols; (fun z => ((c, z), g c z)) <$> zs).*1 = (c ← cols; pair c <$> zs).
Proof.
  induction cols as [|c cols IH]; [done|].
  rewrite !bind_cons, fmap_app, IH. f_equal.
  rewrite <- list_fmap_compose. done.
Qed.

(** X11: the pivot is a rectangular grid.  Its rows are the regions of the
    rows of the view that have a zone, in ascending order; every row
    carries the same column labels, the four count columns in alphabetical
    order each with the zones of the rows of the view that have a region,
    in ascending order; and, as long as no float64 sum is rounded, the cell
    of a region, count column and zone is the sum of that column over the
    rows of the view with that region and zone, in the arithmetic of the
    column. *)
Theorem heatmap_grid (nm : Numerics) (dt : NumCol → dtype) (view : AssetTable) :
  numerics_ok nm →
  (heatmap_data nm dt view).*1
  = group_keys RegionName (filter (fun row => is_Some (z_name row)) view)
  ∧ Forall (fun row =>
              row.2.*1
              = (c ← value_columns;
                 pair c <$> group_keys ZName
                              (filter (fun row => is_Some (region_name row)) view)))
           (heatmap_data nm dt view)
  ∧ ((∀ c, rounding_free (dt c) (num_column c view)) →
     heatmap_data nm dt view
     = (fun r =>
          (r, c ← value_columns;
              (fun z => ((c, z),
                         reduce (dt c)
                           (column_sum c
                              (filter (fun row => region_name row = Some r
                                                  ∧ z_name row = Some z) view))))
                <$> group_keys ZName
                      (filter (fun row => is_Some (region_name row)) view)))
         <$> group_keys RegionName (filter (fun row => is_Some (z_name row)) view)).
Proof.
  intros Hok. split; [|split].
  - unfold heatmap_data, unstack. rewrite fmap_keyed_fst.
    apply pivot_index_group_keys.
  - unfold heatmap_data, unstack. apply Forall_fmap, Forall_true. intros r.
    rewrite <- (pivot_zones_group_keys nm dt).
    apply (grid_row_labels (fun c z => unstack_cell (agged nm dt view) r c z)).
  - by apply heatmap_data_closed.
Qed.

Lemma heatmap_grid_witness :
  (heatmap_data reference_numerics null_key_dtypes example_null_key).*1 = ["A"].
Proof.
  destruct (heatmap_grid reference_numerics null_key_dtypes example_null_key
              reference_numerics_ok) as (Hrows & _).
  rewrite Hrows. vm_compute. reflexivity.
Defined.

(** X12: the pivot does not depend on the order of the rows of the view,
    as long as no float64 sum is rounded. *)
Theorem heatmap_order_free (nm : Numerics) (dt : NumCol → dtype)
    (view view' : AssetTable) :
  numerics_ok nm →
  (∀ c, rounding_free (dt c) (num_column c view)) →
  view ≡ₚ view' → heatmap_data nm dt view = heatmap_data nm dt view'.
Proof.
  intros Hok Hr Hp.
  rewrite !heatmap_data_closed
    by (done || intros c; by apply (rounding_free_Permutation _ _ view)).
  assert (∀ k (P : AssetRecord → Prop) `{!∀ r, Decision (P r)},
            group_keys k (filter P view) = group_keys k (filter P view')) as Hkeys.
  { intros k P ?. apply group_keys_Permutation. by rewrite Hp. }
  rewrite !Hkeys.
  apply list_fmap_ext. intros _ r _. f_equal.
  apply list_bind_ext; [|done]. intros c.
  apply list_fmap_ext. intros _ z _. f_equal. f_equal.
  apply column_sum_Permutation. by rewrite Hp.
Qed.

Lemma heatmap_order_free_witness :
  heatmap_data reference_numerics all_int64 example_table
  = heatmap_data reference_numerics all_int64 (reverse example_table).
Proof.
  apply (heatmap_order_free reference_numerics all_int64 example_table
           (reverse example_table) reference_numerics_ok).
  - intros c. exact I.
  - symmetry. apply reverse_Permutation.
Defined.

Lemma Zsum_indicator_out {K} `{EqDecision K} (ks : list K) (x : K) (a : Z) :
  x ∉ ks → Zsum ((fun v => if decide (x = v) then a else 0) <$> ks) = 0.
Proof.
  intros Hx. rewrite (Zsum_fmap_ext _ (fun _ => 0)); [apply Zsum_fmap_zero|].
  intros v Hv. rewrite decide_False; [done|]. by intros ->.
Qed.

Lemma unstack_row_sum nm dt (view : AssetTable) r c :
  numerics_ok nm → in_range (dt c) (num_column c view) →
  Zsum (unstack_cell (agged nm dt view) r c <$> pivot_zones (agged nm dt view))
  = column_sum c (filter (fun row => region_name row = Some r ∧ is_Some (z_name row))
                         view).
Proof.
  intros Hok Hr.
  set (f := fun row : AssetRecord => default 0 (cell c row)).
  rewrite (Zsum_fmap_ext _
    (fun z => Zsum (f <$> filter (fun row => z_name row = Some z)
                                 (filter (fun row => region_name row = Some r) view)))).
  - rewrite (Zsum_partition z_name).
    + unfold column_sum. rewrite list_filter_filter. f_equal. f_equal.
      apply filter_ext_in. tauto.
    + apply pivot_zones_NoDup.
    + intros row z [Hreg Hrow]%list_elem_of_filter Hz.
      apply elem_of_pivot_zones. exists row, r. split; [done|]. by apply key2_Some.
  - intros z _. rewrite unstack_cell_exact by done. unfold column_sum.
    rewrite list_filter_filter. f_equal. f_equal. apply filter_ext_in. tauto.
Qed.

Lemma unstack_column_sum nm dt (view : AssetTable) z c :
  numerics_ok nm → in_range (dt c) (num_column c view) →
  Zsum ((fun r => unstack_cell (agged nm dt view) r c z)
          <$> pivot_index (agged nm dt view))
  = column_sum c (filter (fun row => z_name row = Some z ∧ is_Some (region_name row))
                         view).
Proof.
  intros Hok Hr.
  set (f := fun row : AssetRecord => default 0 (cell c row)).
  rewrite (Zsum_fmap_ext _
    (fun r => Zsum (f <$> filter (fun row => region_name row = Some r)
                                 (filter (fun row => z_name row = Some z) view)))).
  - rewrite (Zsum_partition region_name).
    + unfold column_sum. rewrite list_filter_filter. f_equal. f_equal.
      apply filter_ext_in. tauto.
    + apply pivot_index_NoDup.
    + intros row r [Hzone Hrow]%list_elem_of_filter Hreg.
      apply elem_of_pivot_index. exists row, z. split; [done|]. by apply key2_Some.
  - intros r _. rewrite unstack_cell_exact by done. unfold column_sum.
    rewrite list_filter_filter. done.
Qed.

Lemma unstack_row_cell a r c z :
  ((c' ← value_columns; (fun z' => ((c', z'), unstack_cell a r c' z')) <$> pivot_zones a)
     ≫= fun e => if bool_decide (e.1 = (c, z)) then [e.2] else [])
  = if decide (z ∈ pivot_zones a) then [unstack_cell a r c z] else [].
Proof.
  assert (∀ c' (zs : list string), NoDup zs →
    (((fun z' => ((c', z'), unstack_cell a r c' z')) <$> zs)
       ≫= fun e => if bool_decide (e.1 = (c, z)) then [e.2] else [])
    = if decide (c' = c ∧ z ∈ zs) then [unstack_cell a r c z] else []) as Hone.
  { intros c' zs. induction 1 as [|z' zs Hz' Hnd IH].
    - rewrite decide_False; [done|]. intros [_ ?%elem_of_nil]. done.
    - rewrite fmap_cons, bind_cons, IH. simpl. case_bool_decide as Heq.
      + injection Heq as -> ->.
        rewrite (decide_False (P := c = c ∧ z ∈ zs)) by tauto.
        rewrite decide_True by (split; [done|left]). done.
      + simpl. apply decide_ext. rewrite elem_of_cons. split; [tauto|].
        intros [-> [->|?]]; tauto. }
  pose proof (pivot_zones_NoDup a) as Hnd.
  unfold value_columns. rewrite !bind_cons, !bind_app, !Hone by done.
  destruct (decide (z ∈ pivot_zones a)) as [Hz|Hz].
  - destruct c; simpl;
      repeat (first [rewrite decide_True by tauto
                    | rewrite decide_False by (intros [? _]; done)]);
      done.
  - repeat (rewrite decide_False by tauto). done.
Qed.

Lemma pivot_row_sum_keyed nm dt (view : AssetTable) c r :
  numerics_ok nm → in_range (dt c) (num_column c view) →
  pivot_row_sum c (heatmap_data nm dt view) r
  = column_sum c (filter (fun row => region_name row = Some r ∧ is_Some (z_name row))
                         view).
Proof.
  intros Hok Hr. unfold pivot_row_sum, heatmap_data, unstack.
  rewrite list_fmap_bind, Zsum_bind.
  rewrite (Zsum_fmap_ext _ (fun x =>
    if decide (r = x)
    then Zsum (unstack_cell (agged nm dt view) r c <$> pivot_zones (agged nm dt view))
    else 0)).
  - destruct (decide (r ∈ pivot_index (agged nm dt view))) as [Hin|Hout].
    + rewrite Zsum_indicator; [by apply unstack_row_sum|apply pivot_index_NoDup|done].
    + rewrite Zsum_indicator_out by done. unfold column_sum.
      rewrite filter_none; [done|]. intros row Hrow [Hreg [z Hz]]. apply Hout.
      apply elem_of_pivot_index. exists row, z. split; [done|]. by apply key2_Some.
  - intros x _. unfold compose. cbn [fst snd]. case_bool_decide as Hx.
    + subst x. rewrite decide_True by done. by rewrite unstack_row_cells.
    + rewrite decide_False by done. done.
Qed.

Lemma pivot_column_sum_keyed nm dt (view : AssetTable) c z :
  numerics_ok nm → in_range (dt c) (num_column c view) →
  pivot_column_sum c (heatmap_data nm dt view) z
  = column_sum c (filter (fun row => z_name row = Some z ∧ is_Some (region_name row))
                         view).
Proof.
  intros Hok Hr. unfold pivot_column_sum, heatmap_data, unstack.
  rewrite list_fmap_bind, Zsum_bind.
  destruct (decide (z ∈ pivot_zones (agged nm dt view))) as [Hin|Hout].
  - rewrite <- (unstack_column_sum nm dt) by done. apply Zsum_fmap_ext. intros x _.
    unfold compose. cbn [snd]. rewrite unstack_row_cell, decide_True by done.
    simpl. lia.
  - rewrite (Zsum_fmap_ext _ (fun _ => 0)).
    + rewrite Zsum_fmap_zero. unfold column_sum.
      rewrite filter_none; [done|]. intros row Hrow [Hzone [r Hreg]]. apply Hout.
      apply elem_of_pivot_zones. exists row, r. split; [done|]. by apply key2_Some.
    + intros x _. unfold compose. cbn [snd].
      rewrite unstack_row_cell, decide_False by done. done.
Qed.

Lemma group_row_total nm dt k c (view : AssetTable) e :
  numerics_ok nm → in_range (dt c) (num_column c view) →
  e ∈ groupby_sum nm dt k view →
  total c (g_sums e) = column_sum c (filter (fun r => key k r = Some (g_key e)) view).
Proof.
  intros Hok Hr (v & -> & _)%list_elem_of_fmap. cbn [g_sums g_key].
  by apply (group_totals_exact nm dt c view).
Qed.

(** X13: the margins of the pivot.  With the counts of a column adding up
    within the range of its dtype, the cells of a region's row add up to
    the sum of the column over the rows of the view with that region and
    some zone, and the cells of a zone's column to the sum over the rows
    with that zone and some region; so when no row has a NULL zone the row
    margins are the values of the frame grouped by region, and when no row
    has a NULL region the column margins are those of the frame grouped by
    zone. *)
Theorem heatmap_margins (nm : Numerics) (dt : NumCol → dtype) (view : AssetTable)
    (c : NumCol) :
  numerics_ok nm →
  in_range (dt c) (num_column c view) →
  (∀ r, pivot_row_sum c (heatmap_data nm dt view) r
        = Zsum ((fun row => default 0 (cell c row))
                  <$> filter (fun row => region_name row = Some r
                                         ∧ is_Some (z_name row)) view))
  ∧ (∀ z, pivot_column_sum c (heatmap_data nm dt view) z
          = Zsum ((fun row => default 0 (cell c row))
                    <$> filter (fun row => z_name row = Some z
                                           ∧ is_Some (region_name row)) view))
  ∧ (None ∉ column ZName view →
     ∀ e, e ∈ region_data nm dt view →
          pivot_row_sum c (heatmap_data nm dt view) (g_key e) = total c (g_sums e))
  ∧ (None ∉ column RegionName view →
     ∀ e, e ∈ zone_data nm dt view →
          pivot_column_sum c (heatmap_data nm dt view) (g_key e) = total c (g_sums e)).
Proof.
  intros Hok Hr. split; [|split; [|split]].
  - intros r. by apply pivot_row_sum_keyed.
  - intros z. by apply pivot_column_sum_keyed.
  - intros Hn e He. rewrite pivot_row_sum_keyed by done.
    rewrite (group_row_total nm dt RegionName c view e) by done.
    f_equal. apply filter_ext_in. intros row Hrow. simpl. split; [tauto|].
    intros Hreg. split; [done|]. destruct (z_name row) eqn:Hz; [done|].
    exfalso. apply Hn. rewrite <- Hz. by apply (list_elem_of_fmap_2 (key ZName)).
  - intros Hn e He. rewrite pivot_column_sum_keyed by done.
    rewrite (group_row_total nm dt ZName c view e) by done.
    f_equal. apply filter_ext_in. intros row Hrow. simpl. split; [tauto|].
    intros Hzone. split; [done|]. destruct (region_name row) eqn:Hreg; [done|].
    exfalso. apply Hn. rewrite <- Hreg. by apply (list_elem_of_fmap_2 (key RegionName)).
Qed.

Lemma heatmap_margins_witness :
  pivot_row_sum Substation
    (heatmap_data reference_numerics null_key_dtypes example_null_key) "B" = 0
  ∧ pivot_column_sum Substation
      (heatmap_data reference_numerics null_key_dtypes example_null_key) "X" = 2.
Proof.
  destruct (heatmap_margins reference_numerics null_key_dtypes example_null_key
              Substation reference_numerics_ok) as (Hrow & Hcol & _).
  - vm_compute. reflexivity.
  - rewrite Hrow, Hcol. split; vm_compute; reflexivity.
Defined.
(** ** Loading over the life of the process (lines 43-63) *)

Section Accounting.
Context (env : Env).

Lemma load_data_cached_cases (w : World) :
  match cache w with
  | Some data => load_data_cached env w = (inr data, w)
  | None =>
      match connect_answer env (connects w), query_answer env (queries w) with
      | false, _ =>
          load_data_cached env w
          = (inl ConnectionError,
             mkWorld (S (connects w)) (queries w) (open_conns w) None)
      | true, None =>
          load_data_cached env w
          = (inl QueryError,
             mkWorld (S (connects w)) (S (queries w))
                     (connects w :: open_conns w) None)
      | true, Some data =>
          load_data_cached env w
          = (inr data,
             mkWorld (S (connects w)) (S (queries w))
                     (filter (fun c => c ≠ connects w) (open_conns w)) (Some data))
      end
  end.
Proof.
  unfold load_data_cached, cache_data.
  pose proof (load_data_cases env w) as H.
  destruct (cache w) eqn:Hc; [done|].
  destruct (connect_answer env (connects w)), (query_answer env (queries w));
    rewrite H; simpl; by rewrite ?Hc.
Qed.

(** One run: what it leaves open, and what it adds to the counts. *)
Lemma run_accounting (w : World) :
  let res := (load_data_cached env (release w)).1 in
  let w1 := (load_data_cached env (release w)).2 in
  length (open_conns w1) = (if raised QueryError res then 1 else 0)%nat
  ∧ (connects w1 + queries w
     = connects w + (if raised ConnectionError res then 1 else 0) + queries w1)%nat
  ∧ (queries w1 + (if cache w is Some _ then 1 else 0)
     = queries w + (if raised QueryError res then 1 else 0)
       + (if cache w1 is Some _ then 1 else 0))%nat.
Proof.
  pose proof (load_data_cached_cases (release w)) as Hc. simpl in *.
  destruct (cache w) as [d|] eqn:Hcw.
  - rewrite Hc. simpl. rewrite Hcw. repeat split; lia.
  - destruct (connect_answer env (connects w)).
    + destruct (query_answer env (queries w)); rewrite Hc; simpl; repeat split; lia.
    + rewrite Hc. simpl. repeat split; lia.
Qed.

Lemma runs_accounting (n : nat) (w : World) :
  length (open_conns (runs env n w).2)
  = match last (runs env n w).1 with
    | Some res => if raised QueryError res then 1%nat else 0%nat
    | None => length (open_conns w)
    end
  ∧ (connects (runs env n w).2 + queries w
     = connects w + count_raised ConnectionError (runs env n w).1
       + queries (runs env n w).2)%nat
  ∧ (queries (runs env n w).2 + (if cache w is Some _ then 1 else 0)
     = queries w + count_raised QueryError (runs env n w).1
       + (if cache (runs env n w).2 is Some _ then 1 else 0))%nat.
Proof.
  revert w. induction n as [|n IH]; intros w.
  - simpl. repeat split; lia.
  - simpl. destruct (run_accounting w) as (Ho & Hcn & Hq).
    destruct (load_data_cached env (release w)) as [res w1]. simpl in Ho, Hcn, Hq.
    destruct (IH w1) as (Ho2 & Hcn2 & Hq2).
    destruct (runs env n w1) as [rest w2]. simpl in *.
    split; [|split; lia].
    rewrite last_cons, Ho2. destruct (last rest); [done|]. exact Ho.
Qed.

Lemma load_data_cached_from_db (w : World) :
  cache_from_db env w →
  cache_from_db env (load_data_cached env w).2
  ∧ ∀ data, (load_data_cached env w).1 = inr data →
      ∃ q, first_answer env q data.
Proof.
  intros Hinv. pose proof (load_data_cached_cases w) as Hc.
  unfold cache_from_db in *.
  destruct (cache w) as [d|] eqn:Hcw.
  - rewrite Hc. simpl. rewrite Hcw. split; [done|].
    intros data [= <-]. destruct Hinv as (q & _ & Hq). by exists q.
  - destruct (connect_answer env (connects w)).
    + destruct (query_answer env (queries w)) as [d|] eqn:Hq.
      * rewrite Hc. simpl. split.
        -- exists (queries w). split; [lia|]. by split.
        -- intros data [= <-]. exists (queries w). by split.
      * rewrite Hc. simpl. split; [|done].
        intros q Hlt. destruct (decide (q = queries w)) as [->|]; [done|].
        apply Hinv. lia.
    + rewrite Hc. simpl. split; [done|done].
Qed.

Lemma runs_from_db (n : nat) (w : World) (i : nat) data :
  cache_from_db env w →
  (runs env n w).1 !! i = Some (inr data) → ∃ q, first_answer env q data.
Proof.
  revert w i. induction n as [|n IH]; intros w i Hinv; [done|].
  simpl. destruct (load_data_cached_from_db (release w) Hinv) as [Hinv1 Hres].
  destruct (load_data_cached env (release w)) as [res w1].
  specialize (IH w1). destruct (runs env n w1) as [rest w2]. simpl in *.
  destruct i as [|i]; simpl.
  - intros [= ->]. by apply Hres.
  - apply IH. done.
Qed.

End Accounting.

(** X14: over any number of runs of the script in one process, starting
    with an empty cache, a connection is left open at the end exactly when
    the last run ended with a query error, and then one only; every run
    that ended with a connection error has made a connection attempt
    without a query; and the queries made are one for each query error,
    plus one once a table is cached. *)
Theorem runs_connection_accounting (env : Env) (n : nat) :
  length (open_conns (runs env n init_world).2)
  = open_after (runs env n init_world).1
  ∧ connects (runs env n init_world).2
    = (count_raised ConnectionError (runs env n init_world).1
       + queries (runs env n init_world).2)%nat
  ∧ queries (runs env n init_world).2
    = (count_raised QueryError (runs env n init_world).1
       + (if cache (runs env n init_world).2 is Some _ then 1 else 0))%nat.
Proof.
  destruct (runs_accounting env n init_world) as (Ho & Hc & Hq).
  unfold open_after. simpl in *. repeat split; [|lia..].
  rewrite Ho. by destruct (last _).
Qed.

(** Two runs against a database that rejects the query: two connections
    made, the second one left open. *)
Example two_failed_runs :
  runs env_query_fails 2 init_world
  = ([inl QueryError; inl QueryError], mkWorld 2 2 [1%nat] None).
Proof. reflexivity. Qed.

(** X15: a table that a run of the script gets from [load_data] is always
    what the database answered to the first query of the process that it
    answered at all, however many runs and failures came before. *)
Theorem shown_table_is_first_answer (env : Env) (n i : nat) (data : list AssetRecord) :
  (runs env n init_world).1 !! i = Some (inr data) →
  ∃ q, query_answer env q = Some data
       ∧ ∀ q', (q' < q)%nat → query_answer env q' = None.
Proof.
  intros H. apply (runs_from_db env n init_world i data); [|done].
  intros q Hq. simpl in Hq. lia.
Qed.

Lemma shown_table_is_first_answer_witness :
  ∃ q, query_answer (env_late example_table) q = Some example_table
       ∧ ∀ q', (q' < q)%nat → query_answer (env_late example_table) q' = None.
Proof.
  apply (shown_table_is_first_answer (env_late example_table) 3 2 example_table).
  reflexivity.
Defined.

(** ** The exported text (line 173) *)



Lemma has_special_weaken q (s : string) :
  has_special true s = false → has_special q s = false.
Proof.
  induction s as [|a s IH]; [done|]. simpl.
  intros [Ha Hs]%orb_false_iff. rewrite IH by done.
  apply special_false in Ha as (Hc & Hq & Hn & Hr).
  unfold special. rewrite Hc, Hq, Hn, Hr. by destruct q.
Qed.

Lemma quote_minimal_plain q (s : string) :
  has_special q s = false → quote_minimal q s = s.
Proof. intros H. unfold quote_minimal. by rewrite H. Qed.

(** X18: count cells are never quoted; and a row whose three category
    fields hold no comma, double quote, line feed or carriage return is
    written as its seven fields separated by commas and closed by a line
    feed, without any quoting. *)
Theorem plain_row_written_plain (q : bool) (nm : Numerics) (dt : NumCol → dtype)
    (r : AssetRecord) (t : dtype) (x : option Z) :
  numerics_ok nm →
  has_special q (category_text (region_name r)) = false →
  has_special q (category_text (z_name r)) = false →
  has_special q (category_text (c_name r)) = false →
  quote_minimal q (format_cell nm t x) = format_cell nm t x
  ∧ write_row q (row_fields nm dt r)
    = (category_text (region_name r)
       ++ String comma (category_text (z_name r)
       ++ String comma (category_text (c_name r)
       ++ String comma (format_cell nm (dt Substation) (substation r)
       ++ String comma (format_cell nm (dt Dtc) (dtc r)
       ++ String comma (format_cell nm (dt HtPole) (ht_pole r)
       ++ String comma (format_cell nm (dt LtPole) (lt_pole r)
       ++ String newline EmptyString)))))))%string.
Proof.
  intros Hok H1 H2 H3.
  assert (∀ t' x', has_special q (format_cell nm t' x') = false) as Hplain
    by (intros t' x'; by apply has_special_weaken, format_cell_plain).
  split; [apply quote_minimal_plain, Hplain|].
  unfold row_fields. cbn [write_row].
  rewrite !quote_minimal_plain by (done || apply Hplain). done.
Qed.

Lemma plain_row_written_plain_witness :
  write_row true (row_fields reference_numerics all_int64 (asset "A" "X" "c1" 2 1 0 0))
  = "A,X,c1,2,1,0,0
"%string.
Proof.
  apply (plain_row_written_plain true reference_numerics all_int64
           (asset "A" "X" "c1" 2 1 0 0) Int64 None reference_numerics_ok);
    reflexivity.
Defined.

(** ** Key metrics (lines 101-104) *)

Example format_commas_examples :
  format_commas 1234567 = "1,234,567"%string
  ∧ format_commas (-1000) = "-1,000"%string
  ∧ format_commas 999 = "999"%string
  ∧ format_commas 0 = "0"%string
  ∧ metric_text reference_numerics Float64 12345 = "12,345.0"%string.
Proof. repeat split; reflexivity. Qed.

Lemma filter_rev {A} (P : A → Prop) `{!∀ x, Decision (P x)} (l : list A) :
  filter P (rev l) = rev (filter P l).
Proof.
  induction l as [|x l IH]; [done|]. simpl rev.
  rewrite filter_app, IH, !filter_cons, filter_nil.
  destruct (decide (P x)); simpl; [done|by rewrite app_nil_r].
Qed.

Lemma remove_commas_chars (s : string) :
  list_ascii_of_string (remove_commas s)
  = filter (fun a => a ≠ comma) (list_ascii_of_string s).
Proof.
  induction s as [|a s IH]; [done|]. simpl. rewrite filter_cons.
  destruct (Ascii.eqb_spec a comma) as [->|Hne].
  - rewrite decide_False by (intros H; by apply H). done.
  - rewrite decide_True by done. simpl. by rewrite IH.
Qed.

Lemma group3_rev_chars (k : nat) (l : list ascii) :
  filter (fun a => a ≠ comma) (group3_rev k l) = filter (fun a => a ≠ comma) l.
Proof.
  revert k. induction l as [|d l IH]; intros k; [done|]. simpl.
  destruct (Nat.eqb k 3).
  - rewrite filter_cons_False by (intros H; by apply H).
    rewrite !filter_cons, IH. done.
  - rewrite !filter_cons, IH. done.
Qed.

Lemma string_chars_inj (s t : string) :
  list_ascii_of_string s = list_ascii_of_string t → s = t.
Proof.
  intros H. rewrite <- (string_of_list_ascii_of_string s),
                    <- (string_of_list_ascii_of_string t). by rewrite H.
Qed.

Lemma remove_commas_group_thousands (s : string) :
  remove_commas (group_thousands s) = remove_commas s.
Proof.
  apply string_chars_inj. rewrite !remove_commas_chars. unfold group_thousands.
  rewrite list_ascii_of_string_of_list_ascii.
  by rewrite filter_rev, group3_rev_chars, <- filter_rev, rev_involutive.
Qed.

Lemma remove_commas_plain (s : string) :
  has_special true s = false → remove_commas s = s.
Proof.
  induction s as [|a s IH]; [done|]. simpl.
  intros [Ha Hs]%orb_false_iff. apply special_false in Ha as (-> & _ & _).
  by rewrite IH.
Qed.

Lemma remove_commas_app (a b : string) :
  remove_commas (a ++ b)%string = (remove_commas a ++ remove_commas b)%string.
Proof.
  induction a as [|x a IH]; [done|].
  change (remove_commas (String x (a ++ b)%string)
          = (remove_commas (String x a) ++ remove_commas b)%string).
  simpl. destruct (Ascii.eqb x comma); [done|].
  change (String x (remove_commas (a ++ b)%string)
          = String x (remove_commas a ++ remove_commas b)%string). by f_equal.
Qed.

Lemma remove_commas_format (z : Z) : remove_commas (format_commas z) = str_of_Z z.
Proof.
  destruct z as [|p|p]; unfold format_commas.
  - by rewrite remove_commas_group_thousands, remove_commas_plain
      by apply str_of_Z_plain.
  - by rewrite remove_commas_group_thousands, remove_commas_plain
      by apply str_of_Z_plain.
  - change (remove_commas (String "-" (group_thousands (str_of_Z (Z.pos p)))))
      with (String "-" (remove_commas (group_thousands (str_of_Z (Z.pos p))))).
    rewrite remove_commas_group_thousands, remove_commas_plain
      by apply str_of_Z_plain.
    reflexivity.
Qed.

(** X19: a metric shows its total: taking the commas out of the text of a
    metric leaves the text of the total of the filtered view, the same
    text the export writes for a cell holding that number; for a float64
    column this is so for totals below 10^16, which Python writes in fixed
    notation. *)
Theorem metric_shows_total (nm : Numerics) (dt : NumCol → dtype) (c : NumCol)
    (filtered : AssetTable) :
  numerics_ok nm →
  (dt c = Float64 → Z.abs (total c (totals nm dt filtered)) < 10 ^ 16) →
  remove_commas (metric nm dt c filtered)
  = format_cell nm (dt c) (Some (total c (totals nm dt filtered))).
Proof.
  intros (_ & _ & Hrepr & _ & Hcommas) Hb. unfold metric, metric_text.
  destruct (dt c); simpl.
  - apply remove_commas_format.
  - rewrite Hcommas, Hrepr by auto.
    rewrite remove_commas_app, remove_commas_format. done.
  - apply remove_commas_format.
Qed.

Lemma metric_shows_total_witness :
  remove_commas (metric reference_numerics all_int64 Substation example_big)
  = "-9223372036854775808"%string.
Proof.
  rewrite (metric_shows_total reference_numerics all_int64 Substation example_big
             reference_numerics_ok).
  - vm_compute. reflexivity.
  - intros [=].
Defined.

Lemma list_ascii_of_string_app (s t : string) :
  list_ascii_of_string (s ++ t)%string
  = list_ascii_of_string s ++ list_ascii_of_string t.
Proof.
  induction s as [|a s IH]; [done|].
  change (a :: list_ascii_of_string (s ++ t)%string
          = a :: (list_ascii_of_string s ++ list_ascii_of_string t)). by f_equal.
Qed.

Lemma string_of_list_ascii_app (l k : list ascii) :
  string_of_list_ascii (l ++ k)
  = (string_of_list_ascii l ++ string_of_list_ascii k)%string.
Proof.
  induction l as [|a l IH]; [done|].
  change (String a (string_of_list_ascii (l ++ k))
          = String a (string_of_list_ascii l ++ string_of_list_ascii k)%string).
  by f_equal.
Qed.

Lemma group3_rev_full (l : list ascii) :
  l ≠ [] → group3_rev 3 l = comma :: group3_rev 0 l.
Proof. destruct l; [done|]. done. Qed.

(** X20: the digits of a metric are grouped in threes from the right: a
    text of at most three digits is shown as it is, and a longer one is
    the grouping of all but its last three digits, a comma, and the last
    three digits. *)
Theorem group_thousands_in_threes (s : string) (a b c : ascii) :
  ((String.length s ≤ 3)%nat → group_thousands s = s)
  ∧ (s ≠ EmptyString →
     group_thousands (s ++ String a (String b (String c EmptyString)))%string
     = (group_thousands s
        ++ String comma (String a (String b (String c EmptyString))))%string).
Proof.
  split.
  - intros Hlen. destruct s as [|x [|y [|z [|w s]]]]; try reflexivity.
    simpl in Hlen. lia.
  - intros Hne. unfold group_thousands.
    rewrite list_ascii_of_string_app. simpl list_ascii_of_string at 2.
    rewrite rev_app_distr. simpl rev at 1. cbn [app group3_rev Nat.eqb].
    rewrite group3_rev_full.
    + cbn [rev]. rewrite <- !app_assoc. rewrite string_of_list_ascii_app. done.
    + destruct s as [|x s]; [done|]. simpl. intros H.
      by apply app_eq_nil in H as [_ ?].
Qed.

Lemma group_thousands_in_threes_witness :
  group_thousands "999" = "999"%string
  ∧ group_thousands "1234567" = (group_thousands "1234" ++ ",567")%string.
Proof.
  split.
  - apply (group_thousands_in_threes "999" "0" "0" "0"). simpl. lia.
  - apply (group_thousands_in_threes "1234" "5" "6" "7"). done.
Defined.
